(** * Bradley-Terry estimator and trophy progression

    A shallow embedding of [scripts/ranking_system_concept.py]: the
    Bradley-Terry update [bt_update], the percentile-to-Normal projection
    [target_trophies], the matchmaker [choose_opponent], the nested
    [trophy_step], and one round of the simulation loop.

    The script computes on NumPy [float64] values.  Its text is embedded
    once, over an interface [Num] of the arithmetic it uses, and read in
    two ways:

    - [Real]: the arithmetic of the real numbers.  Rounding, overflow,
      underflow and NaN are not modelled there, so this reading is used for
      formula and order properties only, which monotone rounding keeps;
      what holds by exact cancellation only, or because the real
      exponential is never 0 or infinite, is not stated of the script;
    - [Binary64]: IEEE-754 binary64, the arithmetic the script runs on, for
      what happens at NaN, overflow, underflow and rounding.

    The library functions the script calls ([numpy.exp], [norm.ppf],
    [numpy.argsort]) are the fields of [SciLib]; what a property needs of
    them is stated where it is used.  In particular [numpy.argsort] is only
    assumed to sort: its default kind is not stable, so no property depends
    on how it orders ties.  Exceptions are results ([Raise]); the random
    source is replaced by the values it draws. *)

From Stdlib Require Import Reals Lra Lia List Arith ZArith Bool.
From Stdlib Require Import Permutation Sorted Floats.
Import ListNotations.

Set Implicit Arguments.

(** ** Python exceptions and results *)

Inductive PyError : Type :=
| IndexError    (* sequence index out of range *)
| ValueError.   (* Generator.choice: bad probability vector *)

Inductive result (A : Type) : Type :=
| Ok (a : A)
| Raise (e : PyError).

Arguments Ok {A} a.
Arguments Raise {A} e.

Definition bind {A B : Type} (m : result A) (k : A -> result B) : result B :=
  match m with
  | Ok a => k a
  | Raise e => Raise e
  end.

Declare Scope py_scope.
Delimit Scope py_scope with py.
Notation "x <- m ;; k" := (bind m (fun x => k))
  (at level 61, m at next level, right associativity) : py_scope.

(** ** Arrays: reading and writing one cell *)

(** [a[i]] for a non-negative index: [IndexError] past the end. *)
Definition get {A : Type} (l : list A) (i : nat) : result A :=
  match nth_error l i with
  | Some x => Ok x
  | None => Raise IndexError
  end.

(** [a[i] = v] once [a[i]] is known to exist; no change past the end. *)
Fixpoint upd {A : Type} (i : nat) (v : A) (l : list A) : list A :=
  match l, i with
  | [], _ => []
  | _ :: t, O => v :: t
  | x :: t, S k => x :: upd k v t
  end.

(** ** The arithmetic the script uses *)

Class Num (F : Type) : Type := {
  f0 : F;                       (* the literal 0 *)
  f1 : F;                       (* the literal 1 *)
  fadd : F -> F -> F;
  fsub : F -> F -> F;
  fmul : F -> F -> F;
  fdiv : F -> F -> F;
  fopp : F -> F;
  flt : F -> F -> bool;         (* x < y *)
  fisnan : F -> bool;
  of_Z : Z -> F                 (* conversion of a Python int *)
}.

(** The library functions the script calls. *)
Class SciLib (F : Type) : Type := {
  np_exp : F -> F;                      (* numpy.exp *)
  norm_ppf : F -> F;                    (* scipy.stats.norm.ppf *)
  np_argsort : list F -> list nat;      (* numpy.argsort, float array *)
  np_argsort_int : list nat -> list nat (* numpy.argsort, index array *)
}.

Declare Scope num_scope.
Delimit Scope num_scope with num.
Notation "x + y" := (fadd x y) : num_scope.
Notation "x - y" := (fsub x y) : num_scope.
Notation "x * y" := (fmul x y) : num_scope.
Notation "x / y" := (fdiv x y) : num_scope.
Notation "- x" := (fopp x) : num_scope.
Notation "x <? y" := (flt x y) : num_scope.

(** A decimal literal [n/d], such as [0.05 = 5/100]. *)
Definition dec {F : Type} `{Num F} (n d : Z) : F := (of_Z n / of_Z d)%num.

(** ** Config (lines 12-27) *)

Record Config (F : Type) : Type := {
  players : nat;
  games_played_per_person : nat;
  K_BT : F;
  tightness : F;
  WIN_GAIN : F;
  LOSS_PENALTY : F;
  TARGET_MEAN : F;
  TARGET_STD : F;
  FADE_WIDTH : F;
  SIGMA_MATCH : F
}.

Definition script_config {F : Type} `{Num F} : Config F := {|
  players := 100;
  games_played_per_person := 100;
  K_BT := dec 5 100;
  tightness := of_Z 2;
  WIN_GAIN := of_Z 35;
  LOSS_PENALTY := of_Z 25;
  TARGET_MEAN := of_Z 1500;
  TARGET_STD := of_Z 430;
  FADE_WIDTH := of_Z 300;
  SIGMA_MATCH := dec 4 10
|}.

(** ** numpy.argsort

    What the library promises of [argsort]: the result is a permutation of
    the indices [0 .. len-1] along which the keys do not decrease.  How ties
    are ordered is left to the sorting algorithm. *)

Section Argsort.
Context {A : Type}.
Variable lt : A -> A -> bool.
Variable d : A.

Definition sorts (srt : list A -> list nat) : Prop :=
  forall l : list A,
    Permutation (srt l) (seq 0 (length l))
    /\ StronglySorted (fun i j => lt (nth j l d) (nth i l d) = false) (srt l).

(** A reference [argsort], to show that [sorts] can be met and to compute
    closed examples: a stable insertion sort.  Index [i] is placed after
    every index already there whose key is not greater.  NumPy's default
    kind is not stable; the properties of the script assume [sorts] only. *)
Fixpoint ins (l : list A) (i : nat) (s : list nat) : list nat :=
  match s with
  | [] => [i]
  | j :: s' =>
      if lt (nth i l d) (nth j l d) then i :: j :: s'
      else j :: ins l i s'
  end.

Definition argsort (l : list A) : list nat :=
  fold_left (fun s i => ins l i s) (seq 0 (length l)) [].

(** The order a stable sort puts the indices in: [i] comes before [j]
    when its key is smaller, or when the keys tie and [i < j]. *)
Definition before (l : list A) (i j : nat) : Prop :=
  lt (nth i l d) (nth j l d) = true
  \/ (lt (nth j l d) (nth i l d) = false /\ i < j).
End Argsort.

(** ** The script *)

Section Script.
Context {F : Type} {num : Num F} {lib : SciLib F}.
Variable cfg : Config F.

Local Open Scope num_scope.

(** Lines 50-53. *)
Definition bt_update (a b outcome K : F) : F * F :=
  let p := np_exp a / (np_exp a + np_exp b) in
  let delta := K * (outcome - p) in
  (a + delta, b - delta).

(** Line 60: [np.argsort(np.argsort(theta))], the rank of every
    participant. *)
Definition ranks_of (theta : list F) : list nat :=
  np_argsort_int (np_argsort theta).

(** Lines 59-63.  [ranks + 1] and [len(theta) + 1] are integers; [/] is
    true division. *)
Definition target_trophies (theta : list F) : list F :=
  let ranks := ranks_of theta in
  let p := map (fun r => of_Z (Z.of_nat r + 1)
                         / of_Z (Z.of_nat (length theta) + 1)) ranks in
  let z := map norm_ppf p in
  map (fun zi => TARGET_MEAN cfg + TARGET_STD cfg * zi) z.

(** [a.sum()] and [a.cumsum()], adding left to right (NumPy groups the
    additions of a long array differently, which can change the rounding). *)
Definition np_sum (l : list F) : F := fold_left fadd l f0.

Fixpoint cumsum_from (acc : F) (l : list F) : list F :=
  match l with
  | [] => []
  | x :: t => (acc + x) :: cumsum_from (acc + x) t
  end.

Definition np_cumsum (l : list F) : list F :=
  match l with
  | [] => []
  | x :: t => x :: cumsum_from x t
  end.

(** [cdf.searchsorted(u, side='right')] on a non-decreasing [cdf]: the
    position of the first entry above [u], that is, how many entries are
    [<= u]. *)
Fixpoint searchsorted_right (cdf : list F) (u : F) : nat :=
  match cdf with
  | [] => 0
  | c :: t => if u <? c then 0 else S (searchsorted_right t u)
  end.

(** The compensated sum [Generator.choice] checks [p] with. *)
Fixpoint kahan_loop (sum c : F) (l : list F) : F :=
  match l with
  | [] => sum
  | x :: t =>
      let y := x - c in
      let t' := sum + y in
      kahan_loop t' ((t' - sum) - y) t
  end.

Definition kahan_sum (l : list F) : F :=
  match l with
  | [] => f0
  | x :: t => kahan_loop x f0 t
  end.

(** [sqrt(finfo(float64).eps) = 2^-26], the tolerance of [choice]. *)
Definition atol : F := dec 1 67108864.

(** [Generator.choice(n, p=p)] for one draw, given the uniform variate [u]
    it consumes: [p] is validated, then looked up in its cumulative sums. *)
Definition rng_choice (u : F) (n : nat) (p : list F) : result nat :=
  if negb (length p =? n)%nat then Raise ValueError
  else
    let p_sum := kahan_sum p in
    if fisnan p_sum then Raise ValueError
    else if existsb (fun x => x <? f0) p then Raise ValueError
    else if (atol <? p_sum - f1) || (atol <? f1 - p_sum) then Raise ValueError
    else
      let cdf := np_cumsum p in
      let cdf := map (fun c => c / last cdf f0) cdf in
      Ok (searchsorted_right cdf u).

(** Line 71, entry by entry: [exp(-0.5 * (x / SIGMA_MATCH) ** 2)]; [** 2]
    squares by one multiplication. *)
Definition kernel (x : F) : F :=
  np_exp (- dec 5 10 * ((x / SIGMA_MATCH cfg) * (x / SIGMA_MATCH cfg))).

(** Lines 69-74. *)
Definition choose_opponent (u : F) (i : nat) (theta : list F) : result nat :=
  (ti <- get theta i ;;
   let diffs := map (fun t => t - ti) theta in
   let probs := map kernel diffs in
   let probs := upd i f0 probs in
   let s := np_sum probs in
   let probs := map (fun q => q / s) probs in
   rng_choice u (length theta) probs)%py.

(** Lines 93-96: the estimator update of one round.  The tuple on the left
    is assigned left to right. *)
Definition bt_round (theta : list F) (i j : nat) (i_wins : bool)
  : result (list F) :=
  (ti <- get theta i ;;
   tj <- get theta j ;;
   if i_wins then
     let '(x, y) := bt_update ti tj f1 (K_BT cfg) in
     Ok (upd j y (upd i x theta))
   else
     let '(x, y) := bt_update tj ti f1 (K_BT cfg) in
     Ok (upd i y (upd j x theta)))%py.

(** [np.clip(x, lo, hi)]: [minimum(maximum(x, lo), hi)], a NaN passes
    through. *)
Definition np_clip (x lo hi : F) : F :=
  let m := if fisnan x then x else if lo <? x then x else lo in
  if fisnan m then m else if m <? hi then m else hi.

(** The builtin [max(a, b)]: [a] is kept unless [b > a]. *)
Definition py_max (a b : F) : F := if a <? b then b else a.

(** Lines 101-113; [targets] and [trophies] are the arrays the closure
    captures, the new [trophies] is returned. *)
Definition trophy_step (targets trophies : list F) (player : nat)
           (win : bool) : result (list F) :=
  (tgt <- get targets player ;;
   cur <- get trophies player ;;
   let gap := tgt - cur in
   let scale := np_clip (gap / FADE_WIDTH cfg) f0 f1 in
   let win_gain := WIN_GAIN cfg * scale in
   let loss_penalty := LOSS_PENALTY cfg * scale in
   let t := if win then cur + win_gain else cur - loss_penalty in
   Ok (upd player (py_max f0 t) trophies))%py.

(** ** One round of the simulation loop (lines 82-116) *)

Record State : Type := {
  theta : list F;
  games : list F;
  trophies : list F
}.

(** [i] is the value of [rng.integers(players)], [u] the variate consumed
    by [choose_opponent], [r] the value of [rng.random()]. *)
Definition simulation_round (true_skills : list F) (st : State)
           (i : nat) (u r : F) : result State :=
  (j <- choose_opponent u i (theta st) ;;
   si <- get true_skills i ;;
   sj <- get true_skills j ;;
   let p_true := f1 / (f1 + np_exp (- tightness cfg * (si - sj))) in
   let i_wins := r <? p_true in
   gi <- get (games st) i ;;
   let games1 := upd i (gi + f1) (games st) in
   gj <- get games1 j ;;
   let games2 := upd j (gj + f1) games1 in
   theta' <- bt_round (theta st) i j i_wins ;;
   let targets := target_trophies theta' in
   tr1 <- trophy_step targets (trophies st) i i_wins ;;
   tr2 <- trophy_step targets tr1 j (negb i_wins) ;;
   Ok {| theta := theta'; games := games2; trophies := tr2 |})%py.

(** Lines 39-45: every array starts at zero. *)
Definition initial_state : State := {|
  theta := repeat f0 (players cfg);
  games := repeat f0 (players cfg);
  trophies := repeat f0 (players cfg)
|}.

(** The states the loop (lines 81-116) can be in, whatever the random
    source draws. *)
Inductive reachable (true_skills : list F) : State -> Prop :=
| reach_start : reachable true_skills initial_state
| reach_round (st st' : State) (i : nat) (u r : F) :
    reachable true_skills st ->
    simulation_round true_skills st i u r = Ok st' ->
    reachable true_skills st'.



(** ** Vocabulary of the properties *)

(** Both [argsort]s of the library sort. *)
Definition argsort_ok : Prop :=
  sorts flt f0 np_argsort /\ sorts Nat.ltb 0%nat np_argsort_int.

(** The winner of a round between [i] and [j], and the loser. *)
Definition winner (i j : nat) (i_wins : bool) : nat := if i_wins then i else j.
Definition loser (i j : nat) (i_wins : bool) : nat := if i_wins then j else i.

(** The spec's stable logistic form of the win probability,
    [1 / (1 + exp(-(s_w - s_l)))]; the script does not use it. *)
Definition stable_p_est (s_w s_l : F) : F :=
  f1 / (f1 + np_exp (- (s_w - s_l))).

End Script.

(** ** Reading 1: the real numbers *)

Module Real.

Definition Rltb (x y : R) : bool := if Rlt_dec x y then true else false.

(** Exact arithmetic: no rounding, no overflow, no NaN. *)
#[global] Instance real_num : Num R := {|
  f0 := 0%R;
  f1 := 1%R;
  fadd := Rplus;
  fsub := Rminus;
  fmul := Rmult;
  fdiv := Rdiv;
  fopp := Ropp;
  flt := Rltb;
  fisnan := fun _ => false;
  of_Z := IZR
|}.

(** An instance of the library for closed terms of this reading: the
    exponential, and the reference sort for [argsort].  [norm.ppf] is left
    open.  The properties of the script are stated for any library that
    meets [argsort_ok]; this instance shows that one exists and serves in
    their examples.  Its exponential is never 0 or infinite and its sort is
    stable, which [numpy.exp] on binary64 and the default [numpy.argsort]
    are not: nothing is stated of the script on those grounds. *)
Definition real_lib (ppf : R -> R) : SciLib R := {|
  np_exp := exp;
  norm_ppf := ppf;
  np_argsort := argsort Rltb 0%R;
  np_argsort_int := argsort Nat.ltb 0%nat
|}.

(** [ppf] increases strictly on the open unit interval. *)
Definition increasing_on_unit (ppf : R -> R) : Prop :=
  forall p q : R, (0 < p)%R -> (p < q)%R -> (q < 1)%R -> (ppf p < ppf q)%R.

(** [ppf] does not decrease on the open unit interval. *)
Definition nondecreasing_on_unit (ppf : R -> R) : Prop :=
  forall p q : R, (0 < p)%R -> (p <= q)%R -> (q < 1)%R -> (ppf p <= ppf q)%R.

(** The quantile function of the uniform law on (-1, 1); it stands for
    [norm.ppf] wherever a concrete increasing function is called for. *)
Definition uniform_ppf (p : R) : R := (2 * p - 1)%R.

(** The fractional rank position [(rank + 1) / (N + 1)]. *)
Definition percentile (rank N : nat) : R := ((INR rank + 1) / (INR N + 1))%R.


(** The spec's [clamp(x, 0, 1)]. *)
Definition clamp01 (x : R) : R := Rmin 1 (Rmax 0 x).

End Real.

(** ** Reading 2: IEEE-754 binary64 *)

Module Binary64.

Definition float_of_Z (z : Z) : float :=
  match z with
  | Z0 => 0%float
  | Zpos _ => of_uint63 (Uint63.of_Z z)
  | Zneg p => (- of_uint63 (Uint63.of_Z (Zpos p)))%float
  end.

#[global] Instance float_num : Num float := {|
  f0 := 0%float;
  f1 := 1%float;
  fadd := PrimFloat.add;
  fsub := PrimFloat.sub;
  fmul := PrimFloat.mul;
  fdiv := PrimFloat.div;
  fopp := PrimFloat.opp;
  flt := PrimFloat.ltb;
  fisnan := PrimFloat.is_nan;
  of_Z := float_of_Z
|}.

(** The order [numpy.argsort] sorts floats by: NaN comes after every
    number. *)
Definition np_lt (x y : float) : bool :=
  (x <? y)%float || (negb (PrimFloat.is_nan x) && PrimFloat.is_nan y).

(** An instance of the library for closed terms of this reading, with the
    reference sort for [argsort]: ascending, NaN last.  Equal keys are left
    in index order here; the default [numpy.argsort] promises no order for
    them, and no property depends on it. *)
Definition float_lib (fexp fppf : float -> float) : SciLib float := {|
  np_exp := fexp;
  norm_ppf := fppf;
  np_argsort := argsort np_lt 0%float;
  np_argsort_int := argsort Nat.ltb 0%nat
|}.

(** A reference exponential on binary64, by [exp x = (exp (x/2))^2] down
    to [|x| <= 1/2] and a Taylor polynomial there.  It overflows to
    [+inf] and underflows to [0] through the arithmetic itself. *)
Definition exp_taylor (x : float) : float :=
  let step (k : Z) (acc : float) := (1 + x / float_of_Z k * acc)%float in
  fold_right step 1%float
    [1; 2; 3; 4; 5; 6; 7; 8; 9; 10; 11; 12; 13; 14; 15; 16; 17]%Z.

Fixpoint exp_halving (fuel : nat) (x : float) : float :=
  match fuel with
  | O => exp_taylor x
  | S n =>
      if (abs x <=? 0.5)%float then exp_taylor x
      else let h := exp_halving n (x / 2)%float in (h * h)%float
  end.

Definition exp64 (x : float) : float :=
  if (x =? neg_infinity)%float then 0%float else exp_halving 1100 x.

(** A stand-in for [norm.ppf] in closed terms of this reading. *)
Definition uniform_ppf64 (p : float) : float := (2 * p - 1)%float.

Definition script_lib : SciLib float := float_lib exp64 uniform_ppf64.

End Binary64.

(** * Properties *)

(** ** Arrays *)

Lemma get_Ok {A : Type} (l : list A) (i : nat) (d : A) :
  i < length l -> get l i = Ok (nth i l d).
Proof.
  intro Hi. unfold get. now rewrite (nth_error_nth' l d Hi).
Qed.

Lemma get_Ok_inv {A : Type} (l : list A) (i : nat) (x d : A) :
  get l i = Ok x -> i < length l /\ nth i l d = x.
Proof.
  unfold get. destruct (nth_error l i) as [y|] eqn:E; [|discriminate].
  intros [= <-]. split.
  - apply nth_error_Some. congruence.
  - now apply nth_error_nth.
Qed.

Lemma upd_length {A : Type} (i : nat) (v : A) (l : list A) :
  length (upd i v l) = length l.
Proof.
  revert i. induction l as [|x t IH]; intros [|k]; simpl; auto.
Qed.

Lemma upd_nth_same {A : Type} (i : nat) (v d : A) (l : list A) :
  i < length l -> nth i (upd i v l) d = v.
Proof.
  revert i. induction l as [|x t IH]; intros [|k] Hk; simpl in *;
    try lia; auto.
  apply IH. lia.
Qed.

Lemma upd_nth_other {A : Type} (i k : nat) (v d : A) (l : list A) :
  i <> k -> nth k (upd i v l) d = nth k l d.
Proof.
  revert i k. induction l as [|x t IH]; intros [|i] [|k] Hik; simpl;
    try congruence; auto.
Qed.

Lemma upd_same {A : Type} (i : nat) (d : A) (l : list A) :
  upd i (nth i l d) l = l.
Proof.
  revert i. induction l as [|x t IH]; intros [|k]; simpl; auto.
  now rewrite IH.
Qed.

(** ** Sorted lists of indices *)

Lemma StronglySorted_nth {A : Type} (R : A -> A -> Prop) (d : A) (s : list A) :
  StronglySorted R s ->
  forall a b, a < b -> b < length s -> R (nth a s d) (nth b s d).
Proof.
  induction 1 as [|x s Hs IH Hx]; intros a b Hab Hb; simpl in *; [lia|].
  destruct b as [|b]; [lia|]. destruct a as [|a].
  - rewrite Forall_forall in Hx. apply Hx, nth_In. lia.
  - apply IH; lia.
Qed.

Lemma sorted_perm_unique (s t : list nat) :
  StronglySorted le s -> StronglySorted le t -> Permutation s t -> s = t.
Proof.
  intros Hs. revert t. induction Hs as [|x s Hs IH Hx]; intros t Ht Hp.
  - now apply Permutation_nil in Hp.
  - destruct Ht as [|y t Ht Hy].
    + apply Permutation_sym, Permutation_nil in Hp. discriminate.
    + rewrite Forall_forall in Hx, Hy.
      assert (x = y) as ->.
      { assert (In y (x :: s)) as [->|Hin]
            by (eapply Permutation_in; [apply Permutation_sym, Hp|now left]);
          [reflexivity|].
        assert (In x (y :: t)) as [->|Hin']
            by (eapply Permutation_in; [apply Hp|now left]);
          [reflexivity|].
        apply Nat.le_antisymm; auto. }
      f_equal. apply IH; [assumption|]. eapply Permutation_cons_inv, Hp.
Qed.

Lemma seq_sorted (n a : nat) : StronglySorted le (seq a n).
Proof.
  revert a. induction n as [|n IH]; intro a; simpl; constructor.
  - apply IH.
  - apply Forall_forall. intros x Hx. apply in_seq in Hx. lia.
Qed.

(** ** The reference sort: a permutation in the stable order *)

Section ArgsortFacts.
Context {A : Type}.
Variable lt : A -> A -> bool.
Variable d : A.
Hypothesis lt_asym : forall x y, lt x y = true -> lt y x = false.
Hypothesis lt_cotrans :
  forall x y z, lt x y = true -> lt x z = true \/ lt z y = true.
Variable l : list A.

Local Abbreviation before := (before lt d l).

Lemma before_asym i j : before i j -> before j i -> False.
Proof.
  intros [H|[H Hij]] [H'|[H' Hji]].
  - apply lt_asym in H. congruence.
  - congruence.
  - congruence.
  - lia.
Qed.

Lemma before_trans i j k : before i j -> before j k -> before i k.
Proof.
  unfold before. intros [H|[H Hij]] [H'|[H' Hjk]].
  - left. destruct (lt_cotrans (nth k l d) H) as [H1|H1]; [assumption|].
    apply lt_asym in H'. congruence.
  - left. destruct (lt_cotrans (nth k l d) H) as [H1|H1]; [assumption|].
    congruence.
  - left. destruct (lt_cotrans (nth i l d) H') as [H1|H1]; [congruence|].
    assumption.
  - right. split; [|lia].
    destruct (lt (nth k l d) (nth i l d)) eqn:E; [|reflexivity].
    destruct (lt_cotrans (nth j l d) E) as [H1|H1]; congruence.
Qed.

Lemma ins_perm i s : Permutation (ins lt d l i s) (i :: s).
Proof.
  induction s as [|j s IH]; simpl; [reflexivity|].
  destruct (lt (nth i l d) (nth j l d)); [reflexivity|].
  rewrite IH. apply perm_swap.
Qed.

Lemma ins_sorted i s :
  StronglySorted before s -> (forall j, In j s -> j < i) ->
  StronglySorted before (ins lt d l i s).
Proof.
  induction 1 as [|j s Hs IH Hj]; intro Hlt; simpl.
  - repeat constructor.
  - destruct (lt (nth i l d) (nth j l d)) eqn:E.
    + constructor; [now constructor|].
      assert (Hij : before i j) by now left.
      constructor; [assumption|].
      rewrite Forall_forall in *. intros x Hx.
      eapply before_trans; [exact Hij|auto].
    + constructor.
      * apply IH. intros x Hx. apply Hlt. now right.
      * rewrite Forall_forall in *. intros x Hx.
        eapply Permutation_in in Hx; [|apply ins_perm].
        destruct Hx as [<-|Hx]; [|auto].
        right. split; [assumption|]. apply Hlt. now left.
Qed.

Lemma fold_ins_perm n k acc :
  Permutation acc (seq 0 k) ->
  Permutation (fold_left (fun s i => ins lt d l i s) (seq k n) acc)
              (seq 0 (k + n)).
Proof.
  revert k acc. induction n as [|n IH]; intros k acc Hp; simpl.
  - now rewrite Nat.add_0_r.
  - replace (k + S n) with (S k + n) by lia. apply IH.
    rewrite ins_perm, seq_S. simpl.
    rewrite Hp. apply Permutation_cons_append.
Qed.

Lemma fold_ins_sorted n k acc :
  Permutation acc (seq 0 k) -> StronglySorted before acc ->
  StronglySorted before
    (fold_left (fun s i => ins lt d l i s) (seq k n) acc).
Proof.
  revert k acc. induction n as [|n IH]; intros k acc Hp Hs; simpl.
  - assumption.
  - apply (IH (S k)).
    + rewrite ins_perm, seq_S. simpl.
      rewrite Hp. apply Permutation_cons_append.
    + apply ins_sorted; [assumption|].
      intros j Hj. eapply Permutation_in in Hj; [|exact Hp].
      apply in_seq in Hj. lia.
Qed.

Lemma argsort_perm : Permutation (argsort lt d l) (seq 0 (length l)).
Proof.
  unfold argsort. apply (@fold_ins_perm (length l) 0 []). constructor.
Qed.

Lemma argsort_sorted : StronglySorted before (argsort lt d l).
Proof.
  unfold argsort.
  apply (@fold_ins_sorted (length l) 0 []); constructor.
Qed.

Lemma argsort_length : length (argsort lt d l) = length l.
Proof.
  rewrite (Permutation_length argsort_perm). apply length_seq.
Qed.

End ArgsortFacts.

Lemma map_nth_seq {A : Type} (d : A) (l : list A) :
  map (fun a => nth a l d) (seq 0 (length l)) = l.
Proof.
  apply (nth_ext _ _ d d).
  - now rewrite length_map, length_seq.
  - intros k Hk. rewrite length_map, length_seq in Hk.
    rewrite (nth_indep _ d (nth 0 l d)) by now rewrite length_map, length_seq.
    rewrite (map_nth (fun a => nth a l d)).
    now rewrite seq_nth.
Qed.

Lemma ltb_asym (x y : nat) : (x <? y) = true -> (y <? x) = false.
Proof.
  intro H. apply Nat.ltb_lt in H. apply Nat.ltb_ge. lia.
Qed.

Lemma ltb_cotrans (x y z : nat) :
  (x <? y) = true -> (x <? z) = true \/ (z <? y) = true.
Proof.
  intro H. apply Nat.ltb_lt in H.
  destruct (Nat.ltb_spec x z) as [Hxz|Hxz]; [now left|].
  right. apply Nat.ltb_lt. lia.
Qed.

(** The reference sort is an [argsort]. *)
Lemma argsort_sorts {A : Type} (lt : A -> A -> bool) (d : A) :
  (forall x y, lt x y = true -> lt y x = false) ->
  (forall x y z, lt x y = true -> lt x z = true \/ lt z y = true) ->
  sorts lt d (argsort lt d).
Proof.
  intros Hasym Hco l. split; [apply argsort_perm|].
  pose proof (argsort_sorted lt d Hasym Hco l) as Hs.
  induction Hs as [|x s Hs IH Hx]; constructor; [exact IH|].
  eapply Forall_impl; [|exact Hx].
  intros j [H|[H _]]; [now apply Hasym|exact H].
Qed.

(** ** Ranks: [argsort(argsort(theta))], for any sorting algorithm *)

Section RankFacts.
Context {A : Type}.
Variable lt : A -> A -> bool.
Variable d : A.
Hypothesis lt_irrefl : forall x, lt x x = false.
Variable srt : list A -> list nat.
Variable srt_int : list nat -> list nat.
Hypothesis srt_sorts : sorts lt d srt.
Hypothesis srt_int_sorts : sorts Nat.ltb 0 srt_int.
Variable l : list A.

Local Abbreviation ranks := (srt_int (srt l)).

(** Sorting a permutation of the indices by value inverts it. *)
Lemma sorts_inverse (s : list nat) (k : nat) :
  Permutation s (seq 0 (length s)) -> k < length s ->
  nth (nth k (srt_int s) 0) s 0 = k.
Proof.
  intros Hp Hk.
  destruct (srt_int_sorts s) as [Hperm Hsort].
  set (t := srt_int s) in *.
  assert (Hm : map (fun a => nth a s 0) t = seq 0 (length s)).
  { apply sorted_perm_unique.
    - clear Hperm. induction Hsort as [|x u Hu IH Hx]; simpl; constructor.
      + exact IH.
      + rewrite Forall_forall in *. intros y Hy.
        apply in_map_iff in Hy as [b [<- Hb]].
        specialize (Hx b Hb). now apply Nat.ltb_ge in Hx.
    - apply seq_sorted.
    - rewrite (Permutation_map _ Hperm), map_nth_seq. exact Hp. }
  assert (Hlen : length t = length s)
    by (rewrite (Permutation_length Hperm); apply length_seq).
  rewrite <- (map_nth (fun a => nth a s 0)).
  rewrite (nth_indep _ _ 0) by now rewrite length_map, Hlen.
  rewrite Hm. now rewrite seq_nth.
Qed.

Lemma srt_length : length (srt l) = length l.
Proof.
  destruct (srt_sorts l) as [Hp _].
  rewrite (Permutation_length Hp). apply length_seq.
Qed.

Lemma ranks_perm : Permutation ranks (seq 0 (length l)).
Proof.
  destruct (srt_int_sorts (srt l)) as [Hp _]. now rewrite srt_length in Hp.
Qed.

Lemma ranks_length : length ranks = length l.
Proof.
  rewrite (Permutation_length ranks_perm). apply length_seq.
Qed.

Lemma ranks_bound i : i < length l -> nth i ranks 0 < length l.
Proof.
  intro Hi.
  assert (In (nth i ranks 0) (seq 0 (length l))) as Hin.
  { eapply Permutation_in; [apply ranks_perm|].
    apply nth_In. now rewrite ranks_length. }
  apply in_seq in Hin. lia.
Qed.

(** The participant of rank [r] is the [r]-th entry of the sorted order. *)
Lemma ranks_position i : i < length l -> nth (nth i ranks 0) (srt l) 0 = i.
Proof.
  intro Hi. apply sorts_inverse.
  - rewrite srt_length. apply srt_sorts.
  - now rewrite srt_length.
Qed.

Lemma ranks_inj i j :
  i < length l -> j < length l -> nth i ranks 0 = nth j ranks 0 -> i = j.
Proof.
  intros Hi Hj H.
  rewrite <- (ranks_position Hi), <- (ranks_position Hj). now rewrite H.
Qed.

(** A strictly smaller key has a strictly smaller rank. *)
Lemma ranks_lt i j :
  i < length l -> j < length l ->
  lt (nth i l d) (nth j l d) = true -> nth i ranks 0 < nth j ranks 0.
Proof.
  intros Hi Hj Hij.
  pose proof (ranks_position Hi) as Pi.
  pose proof (ranks_position Hj) as Pj.
  pose proof (ranks_bound Hi) as Bi.
  destruct (srt_sorts l) as [_ Hs].
  destruct (Nat.lt_trichotomy (nth i ranks 0) (nth j ranks 0))
    as [H|[H|H]]; [assumption| |]; exfalso.
  - apply (ranks_inj Hi Hj) in H. subst j.
    rewrite lt_irrefl in Hij. discriminate.
  - assert (Hji : lt (nth (nth (nth i ranks 0) (srt l) 0) l d)
                     (nth (nth (nth j ranks 0) (srt l) 0) l d) = false).
    { apply (StronglySorted_nth 0 Hs H). now rewrite srt_length. }
    rewrite Pi, Pj in Hji. congruence.
Qed.
End RankFacts.

(** ** The estimator update of a round, in any arithmetic *)

Section RoundFacts.
Context {F : Type} {num : Num F} {lib : SciLib F}.
Variable cfg : Config F.

Local Open Scope num_scope.

Lemma bt_round_cells (theta : list F) (i j : nat) (i_wins : bool) :
  i < length theta -> j < length theta ->
  let w := winner i j i_wins in
  let l := loser i j i_wins in
  let r := bt_update (nth w theta f0) (nth l theta f0) f1 (K_BT cfg) in
  bt_round cfg theta i j i_wins = Ok (upd l (snd r) (upd w (fst r) theta)).
Proof.
  intros Hi Hj. unfold bt_round.
  rewrite (get_Ok theta f0 Hi), (get_Ok theta f0 Hj). simpl.
  destruct i_wins; reflexivity.
Qed.

End RoundFacts.

(** C6.  One estimator update with recorded winner [w] and loser [l]
    computes [p_est = exp(s_w) / (exp(s_w) + exp(s_l))] from the current
    strengths and [delta = step_size * (1 - p_est)], stores [s_w + delta] for
    the winner and [s_l - delta] for the loser, and touches no other cell.
    This holds in any arithmetic, binary64 included. *)
Theorem bt_round_update {F : Type} {num : Num F} {lib : SciLib F}
    (cfg : Config F) (theta : list F) (i j : nat) (i_wins : bool) :
  i < length theta -> j < length theta -> i <> j ->
  let w := winner i j i_wins in
  let l := loser i j i_wins in
  let s_w := nth w theta f0 in
  let s_l := nth l theta f0 in
  let p_est := (np_exp s_w / (np_exp s_w + np_exp s_l))%num in
  let delta := (K_BT cfg * (f1 - p_est))%num in
  exists theta',
    bt_round cfg theta i j i_wins = Ok theta'
    /\ length theta' = length theta
    /\ nth w theta' f0 = (s_w + delta)%num
    /\ nth l theta' f0 = (s_l - delta)%num
    /\ forall k, k <> w -> k <> l -> nth k theta' f0 = nth k theta f0.
Proof.
  intros Hi Hj Hij w l s_w s_l p_est delta.
  assert (Hw : w < length theta) by (unfold w, winner; now destruct i_wins).
  assert (Hl : l < length theta) by (unfold l, loser; now destruct i_wins).
  assert (Hwl : w <> l)
    by (unfold w, l, winner, loser; destruct i_wins; congruence).
  eexists. split; [now apply bt_round_cells|]. fold w l. simpl.
  repeat split.
  - now rewrite !upd_length.
  - rewrite upd_nth_other by congruence. now apply upd_nth_same.
  - apply upd_nth_same. now rewrite upd_length.
  - intros k Hkw Hkl. rewrite !upd_nth_other by congruence. reflexivity.
Qed.

Lemma bt_round_update_witness :
  let cfg : Config float := script_config in
  let e := Binary64.exp64 in
  (0 < 2 /\ 1 < 2 /\ 0 <> 1)
  /\ exists theta',
       bt_round (lib := Binary64.script_lib) cfg [0%float; 0%float] 0 1 true
       = Ok theta'
       /\ length theta' = 2
       /\ nth 0 theta' 0%float
          = (0 + K_BT cfg * (1 - e 0 / (e 0 + e 0)))%float
       /\ nth 1 theta' 0%float
          = (0 - K_BT cfg * (1 - e 0 / (e 0 + e 0)))%float
       /\ forall k, k <> 0 -> k <> 1 ->
                    nth k theta' 0%float = nth k [0%float; 0%float] 0%float.
Proof.
  intros cfg e. split; [lia|].
  exact (bt_round_update (lib := Binary64.script_lib) cfg
           [0%float; 0%float] (i := 0) (j := 1) true
           ltac:(simpl; lia) ltac:(simpl; lia) ltac:(lia)).
Defined.

(** C1, amended.  In every round one [delta] is computed; it is added to
    the winner's latent strength and the same [delta] is subtracted from the
    loser's, and no other strength moves.  This holds in any arithmetic,
    binary64 included.  That the two stored changes cancel is a fact of
    exact arithmetic only ([bt_round_zero_sum_exact]): in binary64 the sum
    and the difference are rounded each on its own, and the two changes can
    differ in the last bit. *)
Theorem bt_round_same_delta {F : Type} {num : Num F} {lib : SciLib F}
    (cfg : Config F) (theta : list F) (i j : nat) (i_wins : bool) :
  i < length theta -> j < length theta -> i <> j ->
  exists theta' delta,
    bt_round cfg theta i j i_wins = Ok theta'
    /\ nth (winner i j i_wins) theta' f0
       = (nth (winner i j i_wins) theta f0 + delta)%num
    /\ nth (loser i j i_wins) theta' f0
       = (nth (loser i j i_wins) theta f0 - delta)%num
    /\ forall k, k <> i -> k <> j -> nth k theta' f0 = nth k theta f0.
Proof.
  intros Hi Hj Hij.
  set (w := winner i j i_wins). set (l := loser i j i_wins).
  assert (Hw : w < length theta) by (unfold w, winner; now destruct i_wins).
  assert (Hwl : w <> l)
    by (unfold w, l, winner, loser; destruct i_wins; congruence).
  pose proof (bt_round_cells cfg theta i_wins Hi Hj) as Hr.
  fold w l in Hr. cbv zeta in Hr. unfold bt_update in Hr. cbv zeta in Hr.
  cbn [fst snd] in Hr.
  set (delta := (K_BT cfg * _)%num) in Hr.
  eexists. exists delta. split; [exact Hr|]. split; [|split].
  - rewrite upd_nth_other by congruence. apply upd_nth_same. exact Hw.
  - apply upd_nth_same. rewrite upd_length.
    unfold l, loser. now destruct i_wins.
  - intros k Hki Hkj.
    rewrite !upd_nth_other; [reflexivity| |];
      unfold w, l, winner, loser; destruct i_wins; congruence.
Qed.

Lemma bt_round_same_delta_witness :
  let cfg : Config float := script_config in
  let theta := [1%float; 1%float] in
  (0 < length theta /\ 1 < length theta /\ 0 <> 1)
  /\ exists theta' delta,
       bt_round (lib := Binary64.script_lib) cfg theta 0 1 true = Ok theta'
       /\ nth 0 theta' 0%float = (nth 0 theta 0 + delta)%float
       /\ nth 1 theta' 0%float = (nth 1 theta 0 - delta)%float
       /\ forall k, k <> 0 -> k <> 1 ->
                    nth k theta' 0%float = nth k theta 0%float.
Proof.
  intros cfg theta.
  assert (H1 : 0 < length theta) by (simpl; lia).
  assert (H2 : 1 < length theta) by (simpl; lia).
  assert (H3 : 0 <> 1) by lia.
  split; [exact (conj H1 (conj H2 H3))|].
  exact (@bt_round_same_delta float _ Binary64.script_lib cfg theta 0 1 true
           H1 H2 H3).
Defined.

(** ** The real reading *)

Section RealFacts.
Import Real.
Local Open Scope R_scope.

Lemma Rltb_true (x y : R) : Rltb x y = true <-> x < y.
Proof.
  unfold Rltb. destruct (Rlt_dec x y); split; intro; auto; discriminate.
Qed.

Lemma Rltb_false (x y : R) : Rltb x y = false <-> y <= x.
Proof.
  unfold Rltb. destruct (Rlt_dec x y); split; intro; auto;
    try discriminate; lra.
Qed.

Lemma Rltb_asym (x y : R) : Rltb x y = true -> Rltb y x = false.
Proof.
  rewrite Rltb_true, Rltb_false. lra.
Qed.

Lemma Rltb_cotrans (x y z : R) :
  Rltb x y = true -> Rltb x z = true \/ Rltb z y = true.
Proof.
  rewrite !Rltb_true. intro H. destruct (Rlt_dec x z); [now left|right; lra].
Qed.

(** In exact arithmetic the estimator update of a round is zero-sum: the
    two changes add up to 0.  (Not so in binary64, where the two results
    are rounded separately.) *)
Lemma bt_round_zero_sum_exact (lib : SciLib R) (cfg : Config R)
    (theta : list R) (i j : nat) (i_wins : bool) :
  (i < length theta)%nat -> (j < length theta)%nat -> i <> j ->
  exists theta' delta,
    bt_round cfg theta i j i_wins = Ok theta'
    /\ nth (winner i j i_wins) theta' 0
       = nth (winner i j i_wins) theta 0 + delta
    /\ nth (loser i j i_wins) theta' 0
       = nth (loser i j i_wins) theta 0 - delta
    /\ (nth i theta' 0 - nth i theta 0) + (nth j theta' 0 - nth j theta 0) = 0
    /\ forall k, k <> i -> k <> j -> nth k theta' 0 = nth k theta 0.
Proof.
  intros Hi Hj Hij.
  set (w := winner i j i_wins). set (l := loser i j i_wins).
  assert (Hw : (w < length theta)%nat)
    by (unfold w, winner; now destruct i_wins).
  assert (Hl : (l < length theta)%nat)
    by (unfold l, loser; now destruct i_wins).
  assert (Hwl : w <> l)
    by (unfold w, l, winner, loser; destruct i_wins; congruence).
  pose proof (bt_round_cells cfg theta i_wins Hi Hj) as Hr.
  fold w l in Hr. simpl in Hr.
  set (delta := K_BT cfg * _) in Hr.
  eexists. exists delta. split; [exact Hr|].
  assert (Ew : nth w (upd l (nth l theta 0 - delta)
                           (upd w (nth w theta 0 + delta) theta)) 0
               = nth w theta 0 + delta).
  { rewrite upd_nth_other by congruence. now apply upd_nth_same. }
  assert (El : nth l (upd l (nth l theta 0 - delta)
                           (upd w (nth w theta 0 + delta) theta)) 0
               = nth l theta 0 - delta).
  { apply upd_nth_same. now rewrite upd_length. }
  split; [exact Ew|]. split; [exact El|]. split.
  - unfold w, l, winner, loser in *. destruct i_wins; rewrite Ew, El; ring.
  - intros k Hki Hkj.
    rewrite !upd_nth_other; [reflexivity| |];
      unfold w, l, winner, loser; destruct i_wins; congruence.
Qed.

Lemma np_clip_clamp01 (x : R) : np_clip x 0 1 = clamp01 x.
Proof.
  unfold np_clip, clamp01. simpl.
  destruct (Rltb 0 x) eqn:E1;
    [apply Rltb_true in E1; rewrite (Rmax_right 0 x) by lra
    |apply Rltb_false in E1; rewrite (Rmax_left 0 x) by lra].
  - destruct (Rltb x 1) eqn:E2;
      [apply Rltb_true in E2; rewrite Rmin_right by lra
      |apply Rltb_false in E2; rewrite Rmin_left by lra]; reflexivity.
  - destruct (Rltb 0 1) eqn:E2;
      [apply Rltb_true in E2; rewrite Rmin_right by lra
      |apply Rltb_false in E2; rewrite Rmin_left by lra]; lra.
Qed.

Lemma py_max_Rmax (a b : R) : py_max a b = Rmax a b.
Proof.
  unfold py_max. simpl.
  destruct (Rltb a b) eqn:E;
    [apply Rltb_true in E; rewrite Rmax_right by lra
    |apply Rltb_false in E; rewrite Rmax_left by lra]; reflexivity.
Qed.

Lemma clamp01_nonpos (x : R) : x <= 0 -> clamp01 x = 0.
Proof.
  intro H. unfold clamp01. rewrite (Rmax_left 0 x) by lra.
  apply Rmin_right. lra.
Qed.

Lemma trophy_step_cell (cfg : Config R)
    (targets trophies : list R) (player : nat) (won : bool) :
  (player < length targets)%nat -> (player < length trophies)%nat ->
  let cur := nth player trophies 0 in
  let scale := clamp01 ((nth player targets 0 - cur) / FADE_WIDTH cfg) in
  trophy_step cfg targets trophies player won
  = Ok (upd player
            (Rmax 0 (if won then cur + WIN_GAIN cfg * scale
                     else cur - LOSS_PENALTY cfg * scale))
            trophies).
Proof.
  intros Ht Hc. unfold trophy_step.
  rewrite (get_Ok targets 0 Ht), (get_Ok trophies 0 Hc). simpl.
  now rewrite np_clip_clamp01, py_max_Rmax.
Qed.

(** C5.  A trophy step takes [gap = target - current_trophy] and
    [scale = clamp(gap / fade_width, 0, 1)]; on a win it adds
    [win_gain * scale], otherwise it subtracts [loss_penalty * scale], and it
    stores the result clamped at a zero floor.  The gap is signed: with a
    positive fade width, a participant at or above target has [scale = 0],
    and a win then adds nothing. *)
Theorem trophy_step_formula (cfg : Config R)
    (targets trophies : list R) (player : nat) (won : bool) :
  (player < length targets)%nat -> (player < length trophies)%nat ->
  let target := nth player targets 0 in
  let cur := nth player trophies 0 in
  let gap := target - cur in
  let scale := clamp01 (gap / FADE_WIDTH cfg) in
  exists trophies',
    trophy_step cfg targets trophies player won = Ok trophies'
    /\ nth player trophies' 0
       = Rmax 0 (if won then cur + WIN_GAIN cfg * scale
                 else cur - LOSS_PENALTY cfg * scale)
    /\ (forall k, k <> player -> nth k trophies' 0 = nth k trophies 0)
    /\ (0 < FADE_WIDTH cfg -> target <= cur ->
        scale = 0 /\ (won = true -> nth player trophies' 0 = Rmax 0 cur)).
Proof.
  intros Ht Hc target cur gap scale.
  eexists. split; [now apply trophy_step_cell|].
  fold cur. fold target. fold gap. fold scale.
  rewrite upd_nth_same by assumption.
  split; [reflexivity|]. split.
  - intros k Hk. now apply upd_nth_other.
  - intros Hf Hge.
    assert (Hs : scale = 0).
    { apply clamp01_nonpos. unfold gap, Rdiv.
      assert (0 < / FADE_WIDTH cfg) by now apply Rinv_0_lt_compat.
      assert (target - cur <= 0) by lra. nra. }
    split; [exact Hs|]. intros ->. rewrite Hs. f_equal. ring.
Qed.

Lemma trophy_step_formula_witness :
  let cfg : Config R := script_config in
  ((0 < 1)%nat /\ (0 < 1)%nat)
  /\ exists trophies',
       trophy_step cfg [100] [200] 0 true = Ok trophies'
       /\ nth 0 trophies' 0
          = Rmax 0 (200 + WIN_GAIN cfg * clamp01 ((100 - 200) / FADE_WIDTH cfg))
       /\ (forall k, k <> 0%nat -> nth k trophies' 0 = nth k [200] 0)
       /\ (0 < FADE_WIDTH cfg -> 100 <= 200 ->
           clamp01 ((100 - 200) / FADE_WIDTH cfg) = 0
           /\ (true = true -> nth 0 trophies' 0 = Rmax 0 200)).
Proof.
  intro cfg. split; [lia|].
  exact (trophy_step_formula cfg [100] [200] (player := 0) true
           ltac:(simpl; lia) ltac:(simpl; lia)).
Defined.

(** C10.  With a positive fade width, a participant whose (non-negative)
    trophy score is at or above its target keeps exactly that score through
    one trophy step, won or lost: the clamped scale is 0, so the gain and the
    penalty are both zero, and the whole trophy array is unchanged. *)
Theorem trophy_step_at_or_above_target (cfg : Config R)
    (targets trophies : list R) (player : nat) (won : bool) :
  (player < length targets)%nat -> (player < length trophies)%nat ->
  0 < FADE_WIDTH cfg ->
  0 <= nth player trophies 0 ->
  nth player targets 0 <= nth player trophies 0 ->
  clamp01 ((nth player targets 0 - nth player trophies 0) / FADE_WIDTH cfg) = 0
  /\ trophy_step cfg targets trophies player won = Ok trophies.
Proof.
  intros Ht Hc Hf Hpos Hge.
  assert (Hs : clamp01 ((nth player targets 0 - nth player trophies 0)
                        / FADE_WIDTH cfg) = 0).
  { apply clamp01_nonpos. unfold Rdiv.
    assert (0 < / FADE_WIDTH cfg) by now apply Rinv_0_lt_compat.
    assert (nth player targets 0 - nth player trophies 0 <= 0) by lra. nra. }
  split; [exact Hs|].
  rewrite trophy_step_cell by assumption. rewrite Hs. f_equal.
  replace (Rmax 0 _) with (nth player trophies 0).
  - apply upd_same.
  - symmetry. destruct won; rewrite Rmax_right; lra.
Qed.

Lemma trophy_step_at_or_above_target_witness :
  let cfg : Config R := script_config in
  ((1 < 2)%nat /\ (1 < 2)%nat /\ 0 < FADE_WIDTH cfg
   /\ 0 <= nth 1 [0; 1700] 0 /\ nth 1 [1300; 1650] 0 <= nth 1 [0; 1700] 0)
  /\ clamp01 ((nth 1 [1300; 1650] 0 - nth 1 [0; 1700] 0) / FADE_WIDTH cfg) = 0
  /\ trophy_step cfg [1300; 1650] [0; 1700] 1 false = Ok [0; 1700].
Proof.
  intro cfg.
  assert (H1 : (1 < length [1300; 1650])%nat) by (simpl; lia).
  assert (H2 : (1 < length [0; 1700])%nat) by (simpl; lia).
  assert (H3 : 0 < FADE_WIDTH cfg) by (simpl; lra).
  assert (H4 : 0 <= nth 1 [0; 1700] 0) by (simpl; lra).
  assert (H5 : nth 1 [1300; 1650] 0 <= nth 1 [0; 1700] 0) by (simpl; lra).
  split; [repeat split; assumption|].
  exact (trophy_step_at_or_above_target cfg [1300; 1650] [0; 1700]
           false H1 H2 H3 H4 H5).
Defined.

(** *** The matchmaker never pairs a participant with itself *)

Lemma searchsorted_right_spec (cdf : list R) (u : R) :
  let j := searchsorted_right cdf u in
  (forall k, (k < j)%nat -> nth k cdf 0 <= u)
  /\ ((j < length cdf)%nat -> u < nth j cdf 0).
Proof.
  induction cdf as [|c t [IH1 IH2]]; simpl.
  - split; intros; lia.
  - destruct (Rltb u c) eqn:E.
    + apply Rltb_true in E. split; [intros; lia|auto].
    + apply Rltb_false in E. split.
      * intros [|k] Hk; [exact E|]. apply IH1. lia.
      * intro H. apply IH2. lia.
Qed.

Lemma cumsum_from_step (acc : R) (l : list R) (k : nat) :
  (S k < length l)%nat ->
  nth (S k) (cumsum_from acc l) 0
  = nth k (cumsum_from acc l) 0 + nth (S k) l 0.
Proof.
  revert acc k. induction l as [|x t IH]; intros acc k Hk; simpl in Hk;
    [lia|].
  destruct k as [|k].
  - destruct t as [|y t]; [simpl in Hk; lia|]. reflexivity.
  - simpl. apply IH. lia.
Qed.

Lemma np_cumsum_step (l : list R) (k : nat) :
  (S k < length l)%nat ->
  nth (S k) (np_cumsum l) 0 = nth k (np_cumsum l) 0 + nth (S k) l 0.
Proof.
  destruct l as [|x t]; simpl; [lia|]. intro Hk.
  destruct k as [|k].
  - destruct t as [|y t]; [simpl in Hk; lia|]. reflexivity.
  - apply cumsum_from_step. lia.
Qed.

Lemma np_cumsum_length (l : list R) : length (np_cumsum l) = length l.
Proof.
  destruct l as [|x t]; [reflexivity|]. simpl. f_equal.
  generalize x. induction t as [|y t IH]; intro a; simpl; auto.
Qed.

(** With a variate [u >= 0], the opponent returned is never [i]: the
    weight of [i] is set to 0, so the cumulative sums do not move at [i]. *)
Lemma choose_opponent_not_self (lib : SciLib R) (cfg : Config R)
    (u : R) (i j : nat) (theta : list R) :
  0 <= u -> choose_opponent cfg u i theta = Ok j -> j <> i.
Proof.
  intros Hu Hc Hji. subst j. unfold choose_opponent in Hc.
  destruct (get theta i) as [ti|e] eqn:E; [|discriminate].
  apply (get_Ok_inv _ _ 0) in E as [Hi _]. simpl bind in Hc. cbv zeta in Hc.
  set (probs := upd i _ _) in Hc.
  set (p := map _ probs) in Hc.
  assert (Hlen : length p = length theta)
    by (unfold p, probs; now rewrite length_map, upd_length, !length_map).
  assert (Hpi : nth i p 0 = 0).
  { unfold p.
    rewrite (nth_indep _ 0 (0 / np_sum probs))
      by (rewrite length_map; unfold probs;
          now rewrite upd_length, !length_map).
    rewrite (map_nth (fun q => q / np_sum probs)).
    unfold probs. rewrite upd_nth_same by now rewrite !length_map.
    simpl. unfold Rdiv. ring. }
  unfold rng_choice in Hc.
  destruct (negb _); [discriminate|].
  destruct (fisnan _); [discriminate|].
  destruct (existsb _ p); [discriminate|].
  destruct (_ || _)%bool; [discriminate|].
  injection Hc as Hc.
  set (L := last (np_cumsum p) _) in Hc.
  destruct (searchsorted_right_spec
              (map (fun c => c / L) (np_cumsum p)) u) as [H1 H2].
  rewrite Hc in H1, H2.
  rewrite length_map, np_cumsum_length, Hlen in H2. specialize (H2 Hi).
  assert (Hnth : forall k, (k < length theta)%nat ->
                   nth k (map (fun c => c / L) (np_cumsum p)) 0
                   = nth k (np_cumsum p) 0 / L).
  { intros k Hk.
    rewrite (nth_indep _ 0 (0 / L))
      by now rewrite length_map, np_cumsum_length, Hlen.
    now rewrite (map_nth (fun c => c / L)). }
  rewrite Hnth in H2 by assumption.
  destruct i as [|k].
  - assert (H0 : nth 0 (np_cumsum p) 0 = nth 0 p 0)
      by (destruct p; reflexivity).
    rewrite H0, Hpi in H2. unfold Rdiv in H2. rewrite Rmult_0_l in H2. lra.
  - specialize (H1 k (Nat.lt_succ_diag_r k)).
    rewrite Hnth in H1 by lia.
    rewrite np_cumsum_step, Hpi, Rplus_0_r in H2 by now rewrite Hlen.
    lra.
Qed.

(** Every round that completes updates the estimator for a match between
    two distinct participants in range: the premises of C1 and C6 hold for
    every match the loop processes. *)
Lemma simulation_round_match (lib : SciLib R) (cfg : Config R)
    (true_skills : list R) (st st' : State) (i : nat) (u r : R) :
  0 <= u ->
  simulation_round cfg true_skills st i u r = Ok st' ->
  exists j i_wins,
    j <> i
    /\ (i < length (theta st))%nat /\ (j < length (theta st))%nat
    /\ bt_round cfg (theta st) i j i_wins = Ok (theta st').
Proof.
  intros Hu Hround. unfold simulation_round in Hround.
  destruct (choose_opponent cfg u i (theta st)) as [j|e] eqn:Ej;
    [|discriminate].
  simpl bind in Hround.
  repeat match type of Hround with
         | bind ?m _ = Ok _ =>
             let E := fresh "E" in
             destruct m eqn:E; simpl bind in Hround; [|discriminate]
         end.
  injection Hround as <-. simpl.
  match goal with
  | H : bt_round cfg (theta st) i j ?w = Ok _ |- _ =>
      exists j, w; pose proof H as Hbt
  end.
  split; [exact (@choose_opponent_not_self lib cfg u i j (theta st) Hu Ej)|].
  unfold bt_round in Hbt.
  destruct (get (theta st) i) as [ti|e] eqn:Ei; [|discriminate].
  simpl bind in Hbt.
  destruct (get (theta st) j) as [tj|e] eqn:Etj; [|discriminate].
  apply (get_Ok_inv _ _ 0) in Ei as [Hi _].
  apply (get_Ok_inv _ _ 0) in Etj as [Hj _].
  repeat split; assumption.
Qed.

(** In the real reading too a step stores a score [>= 0], and the scores of
    every reachable state are [>= 0]: the invariant C10 relies on. *)
Lemma trophy_step_keeps_nonneg (cfg : Config R)
    (targets trophies trophies' : list R) (player : nat) (won : bool) :
  Forall (Rle 0) trophies ->
  trophy_step cfg targets trophies player won = Ok trophies' ->
  Forall (Rle 0) trophies'.
Proof.
  intros Hall Hstep.
  assert (Ht : (player < length targets)%nat).
  { unfold trophy_step in Hstep.
    destruct (get targets player) as [x|e] eqn:E; [|discriminate].
    now apply (get_Ok_inv _ _ 0) in E. }
  assert (Hc : (player < length trophies)%nat).
  { unfold trophy_step in Hstep.
    destruct (get targets player) as [x|e]; [|discriminate]. simpl in Hstep.
    destruct (get trophies player) as [y|e] eqn:E; [|discriminate].
    now apply (get_Ok_inv _ _ 0) in E. }
  rewrite (trophy_step_cell cfg targets trophies won Ht Hc) in Hstep.
  injection Hstep as <-.
  apply Forall_forall. intros x Hx.
  destruct (In_nth _ _ 0 Hx) as (k & Hk & <-). rewrite upd_length in Hk.
  destruct (Nat.eq_dec player k) as [<-|Hne].
  - rewrite upd_nth_same by assumption. apply Rmax_l.
  - rewrite upd_nth_other by assumption.
    rewrite Forall_forall in Hall. apply Hall. now apply nth_In.
Qed.

Lemma reachable_trophies_nonneg (lib : SciLib R) (cfg : Config R)
    (true_skills : list R) (st : State) :
  reachable cfg true_skills st -> Forall (Rle 0) (trophies st).
Proof.
  induction 1 as [|st st' i u r Hreach IH Hround].
  - simpl. apply Forall_forall. intros x Hx.
    apply repeat_spec in Hx. subst x. simpl. lra.
  - unfold simulation_round in Hround.
    repeat match type of Hround with
           | bind ?m _ = Ok _ =>
               let E := fresh "E" in
               destruct m eqn:E; simpl in Hround; [|discriminate]
           end.
    injection Hround as <-. simpl.
    eapply trophy_step_keeps_nonneg; [|eassumption].
    eapply trophy_step_keeps_nonneg; eassumption.
Qed.

(** Over the reals the raw quotient of [bt_update] and the logistic form
    agree. *)
Lemma raw_quotient_is_logistic (ppf : R -> R) (a b : R) :
  exp a / (exp a + exp b) = stable_p_est (lib := real_lib ppf) a b.
Proof.
  unfold stable_p_est. simpl.
  replace (- (a - b)) with (b + - a) by ring.
  rewrite exp_plus, exp_Ropp.
  pose proof (exp_pos a). pose proof (exp_pos b).
  field. split; lra.
Qed.

(** *** Targets *)

Lemma percentile_IZR (r N : nat) :
  IZR (Z.of_nat r + 1) / IZR (Z.of_nat N + 1) = percentile r N.
Proof.
  unfold percentile. now rewrite !plus_IZR, <- !INR_IZR_INZ.
Qed.

Lemma percentile_bounds (r N : nat) :
  (r < N)%nat -> 0 < percentile r N < 1.
Proof.
  intro H. unfold percentile.
  pose proof (pos_INR r). pose proof (pos_INR N).
  apply lt_INR in H.
  split.
  - apply Rdiv_lt_0_compat; lra.
  - apply (Rmult_lt_reg_r (INR N + 1)); [lra|].
    unfold Rdiv. rewrite Rmult_assoc, Rinv_l by lra. lra.
Qed.

Lemma percentile_lt (r r' N : nat) :
  (r < r')%nat -> percentile r N < percentile r' N.
Proof.
  intro H. unfold percentile, Rdiv.
  pose proof (pos_INR N). apply lt_INR in H.
  apply Rmult_lt_compat_r; [apply Rinv_0_lt_compat|]; lra.
Qed.

Lemma Rltb_irrefl (x : R) : Rltb x x = false.
Proof.
  apply Rltb_false. lra.
Qed.

(** The reference sorts of the real reading are [argsort]s. *)
Lemma real_lib_argsort_ok (ppf : R -> R) : argsort_ok (lib := real_lib ppf).
Proof.
  split; simpl.
  - apply argsort_sorts; [apply Rltb_asym|apply Rltb_cotrans].
  - apply argsort_sorts; [apply ltb_asym|apply ltb_cotrans].
Qed.

Section TargetFacts.
Variable lib : SciLib R.
Variable cfg : Config R.
Hypothesis lib_sorts : argsort_ok.
Variable theta : list R.

Lemma rank_bound (i : nat) :
  (i < length theta)%nat -> (nth i (ranks_of theta) 0 < length theta)%nat.
Proof.
  destruct lib_sorts as [S1 S2]. apply (ranks_bound S1 S2).
Qed.

Lemma rank_strength_lt (i j : nat) :
  (i < length theta)%nat -> (j < length theta)%nat ->
  nth i theta 0 < nth j theta 0 ->
  (nth i (ranks_of theta) 0 < nth j (ranks_of theta) 0)%nat.
Proof.
  intros Hi Hj H. destruct lib_sorts as [S1 S2].
  apply (ranks_lt Rltb_irrefl S1 S2 theta Hi Hj).
  now apply Rltb_true.
Qed.

Lemma target_trophies_length :
  length (target_trophies cfg theta) = length theta.
Proof.
  destruct lib_sorts as [S1 S2].
  unfold target_trophies. rewrite !length_map. apply (ranks_length S1 S2).
Qed.

Lemma target_trophies_nth (i : nat) :
  (i < length theta)%nat ->
  nth i (target_trophies cfg theta) 0
  = TARGET_MEAN cfg
    + TARGET_STD cfg
      * norm_ppf (percentile (nth i (ranks_of theta) 0%nat) (length theta)).
Proof.
  intro Hi. destruct lib_sorts as [S1 S2].
  unfold target_trophies. rewrite !map_map. simpl.
  fold (ranks_of theta).
  set (g := fun r : nat => _).
  rewrite (nth_indep _ 0 (g 0%nat))
    by (rewrite length_map; unfold ranks_of; now rewrite (ranks_length S1 S2)).
  rewrite (map_nth g). unfold g. now rewrite percentile_IZR.
Qed.

End TargetFacts.

Lemma uniform_ppf_nondecreasing : nondecreasing_on_unit uniform_ppf.
Proof.
  intros p q _ Hpq _. unfold uniform_ppf. lra.
Qed.

Lemma uniform_ppf_increasing : increasing_on_unit uniform_ppf.
Proof.
  intros p q _ Hpq _. unfold uniform_ppf. lra.
Qed.

(** C7.  [target_trophies] is monotone: whatever sorting algorithm
    [argsort] runs, if [norm.ppf] does not decrease on (0,1) and the target
    standard deviation is not negative, then [theta[i] > theta[j]] implies
    [target[i] >= target[j]]. *)
Theorem target_trophies_monotone (lib : SciLib R) (cfg : Config R)
    (theta : list R) (i j : nat) :
  argsort_ok ->
  nondecreasing_on_unit norm_ppf ->
  0 <= TARGET_STD cfg ->
  (i < length theta)%nat -> (j < length theta)%nat ->
  nth i theta 0 > nth j theta 0 ->
  nth i (target_trophies cfg theta) 0 >= nth j (target_trophies cfg theta) 0.
Proof.
  intros Hs Hppf Hstd Hi Hj Hgt.
  rewrite !(target_trophies_nth cfg Hs) by assumption.
  pose proof (rank_strength_lt Hs theta Hj Hi Hgt) as Hr.
  pose proof (rank_bound Hs theta Hi) as Bi.
  pose proof (rank_bound Hs theta Hj) as Bj.
  pose proof (percentile_lt (length theta) Hr) as Hp.
  pose proof (percentile_bounds Bi) as [_ Hi1].
  pose proof (percentile_bounds Bj) as [Hj0 _].
  assert (Hle : norm_ppf (percentile (nth j (ranks_of theta) 0%nat)
                                     (length theta))
                <= norm_ppf (percentile (nth i (ranks_of theta) 0%nat)
                                        (length theta)))
    by (apply Hppf; lra).
  nra.
Qed.

Lemma target_trophies_monotone_witness :
  let cfg : Config R := script_config in
  let lib := real_lib uniform_ppf in
  let t := target_trophies cfg [1; 0] in
  (argsort_ok /\ nondecreasing_on_unit norm_ppf /\ 0 <= TARGET_STD cfg
   /\ (0 < 2)%nat /\ (1 < 2)%nat /\ nth 0 [1; 0] 0 > nth 1 [1; 0] 0)
  /\ nth 0 t 0 >= nth 1 t 0.
Proof.
  intros cfg lib t.
  assert (H0 : argsort_ok (lib := lib)) by apply real_lib_argsort_ok.
  assert (H1 : nondecreasing_on_unit (norm_ppf (SciLib := lib)))
    by apply uniform_ppf_nondecreasing.
  assert (H2 : 0 <= TARGET_STD cfg) by (simpl; lra).
  assert (H3 : (0 < length [1; 0])%nat) by (simpl; lia).
  assert (H4 : (1 < length [1; 0])%nat) by (simpl; lia).
  assert (H5 : nth 0 [1; 0] 0 > nth 1 [1; 0] 0) by (simpl; lra).
  split; [exact (conj H0 (conj H1 (conj H2 (conj H3 (conj H4 H5)))))|].
  exact (@target_trophies_monotone lib cfg [1; 0] 0 1 H0 H1 H2 H3 H4 H5).
Defined.

(** C8.  [target_trophies] ranks all [N] participants by latent strength
    ascending (the ranks are a permutation of [0 .. N-1] that follows the
    strengths), gives each the fractional rank position
    [p = (rank + 1) / (N + 1)], which lies strictly inside (0,1), and
    returns [target = mean + std * ppf(p)] for each participant. *)
Theorem target_trophies_formula (lib : SciLib R) (cfg : Config R)
    (theta : list R) :
  argsort_ok ->
  let N := length theta in
  let ranks := ranks_of theta in
  let targets := target_trophies cfg theta in
  length targets = N
  /\ Permutation ranks (seq 0 N)
  /\ (forall i j, (i < N)%nat -> (j < N)%nat ->
                  nth i theta 0 < nth j theta 0 ->
                  (nth i ranks 0 < nth j ranks 0)%nat)
  /\ (forall i, (i < N)%nat ->
                let p := (INR (nth i ranks 0%nat) + 1) / (INR N + 1) in
                0 < p < 1
                /\ nth i targets 0
                   = TARGET_MEAN cfg + TARGET_STD cfg * norm_ppf p).
Proof.
  intros Hs N ranks targets.
  split; [now apply target_trophies_length|].
  split; [destruct Hs as [S1 S2]; apply (ranks_perm S1 S2)|].
  split; [intros i j; now apply rank_strength_lt|].
  intros i Hi p. split.
  - apply percentile_bounds. now apply rank_bound.
  - unfold targets. now rewrite target_trophies_nth.
Qed.

Lemma target_trophies_formula_witness :
  let cfg : Config R := script_config in
  let lib := real_lib uniform_ppf in
  let theta := [0.5; -1; 2] in
  let ranks := ranks_of theta in
  let targets := target_trophies cfg theta in
  argsort_ok
  /\ length targets = 3%nat
  /\ Permutation ranks (seq 0 3)
  /\ (forall i j, (i < 3)%nat -> (j < 3)%nat ->
                  nth i theta 0 < nth j theta 0 ->
                  (nth i ranks 0 < nth j ranks 0)%nat)
  /\ (forall i, (i < 3)%nat ->
                let p := (INR (nth i ranks 0%nat) + 1) / (INR 3 + 1) in
                0 < p < 1
                /\ nth i targets 0
                   = TARGET_MEAN cfg + TARGET_STD cfg * uniform_ppf p).
Proof.
  intros cfg lib theta ranks targets.
  assert (H0 : argsort_ok (lib := lib)) by apply real_lib_argsort_ok.
  split; [exact H0|].
  exact (@target_trophies_formula lib cfg theta H0).
Defined.

(** C9, as stated, fails: two participants with equal latent strength 0
    receive different targets, and neither receives the target of the
    midpoint percentile 1/2.  (The two targets are the values at the
    percentiles 1/3 and 2/3; the statement does not depend on which of the
    two participants the sort puts first.) *)
Lemma tied_targets_differ :
  let cfg : Config R := script_config in
  let lib := real_lib uniform_ppf in
  let theta := [0; 0] in
  let t := target_trophies cfg theta in
  let midpoint := 1500 + 430 * uniform_ppf (1 / 2) in
  nth 0 theta 0 = nth 1 theta 0
  /\ nth 0 t 0 <> nth 1 t 0
  /\ nth 0 t 0 <> midpoint
  /\ nth 1 t 0 <> midpoint.
Proof.
  intros cfg lib theta t midpoint.
  assert (Hr : ranks_of theta = [0; 1]%nat).
  { unfold ranks_of, theta. simpl. unfold argsort. simpl.
    rewrite (proj2 (Rltb_false 0 0)) by lra. reflexivity. }
  assert (Ht : t = [1500 + 430 * uniform_ppf (1 / 3);
                    1500 + 430 * uniform_ppf (2 / 3)]).
  { unfold t, target_trophies. fold (ranks_of theta). rewrite Hr. simpl.
    repeat f_equal; lra. }
  split; [reflexivity|].
  rewrite Ht. unfold midpoint. simpl. unfold uniform_ppf.
  repeat split; lra.
Qed.

(** C9, amended.  Participants with exactly equal latent strengths are not
    given a midpoint rank: [argsort(argsort(theta))] is a permutation, so two
    tied participants get different ranks and different percentiles, and,
    for a non-zero target standard deviation and a [norm.ppf] increasing on
    (0,1), different targets.  The tied participants share a block of
    consecutive ranks (whoever is ranked between two of them is tied with
    them); which of them gets the smaller rank is left to the sorting
    algorithm. *)
Theorem target_trophies_tie_split (lib : SciLib R) (cfg : Config R)
    (theta : list R) (i j : nat) :
  argsort_ok ->
  increasing_on_unit norm_ppf ->
  TARGET_STD cfg <> 0 ->
  i <> j -> (i < length theta)%nat -> (j < length theta)%nat ->
  nth i theta 0 = nth j theta 0 ->
  let rank k := nth k (ranks_of theta) 0%nat in
  rank i <> rank j
  /\ percentile (rank i) (length theta) <> percentile (rank j) (length theta)
  /\ nth i (target_trophies cfg theta) 0 <> nth j (target_trophies cfg theta) 0
  /\ forall k, (k < length theta)%nat ->
       (rank i < rank k < rank j)%nat -> nth k theta 0 = nth i theta 0.
Proof.
  intros Hs Hppf Hstd Hij Hi Hj Heq rank.
  pose proof (rank_bound Hs theta Hi) as Bi.
  pose proof (rank_bound Hs theta Hj) as Bj.
  pose proof (percentile_bounds Bi) as [Hi0 Hi1].
  pose proof (percentile_bounds Bj) as [Hj0 Hj1].
  fold (rank i) in Bi, Hi0, Hi1. fold (rank j) in Bj, Hj0, Hj1.
  assert (Hne : rank i <> rank j).
  { intro H. destruct Hs as [S1 S2].
    apply (ranks_inj S1 S2 theta Hi Hj) in H. contradiction. }
  assert (Hp : percentile (rank i) (length theta)
               <> percentile (rank j) (length theta)).
  { destruct (Nat.lt_trichotomy (rank i) (rank j)) as [H|[H|H]];
      [|contradiction|];
      pose proof (percentile_lt (length theta) H); lra. }
  split; [exact Hne|]. split; [exact Hp|]. split.
  - rewrite !(target_trophies_nth cfg Hs) by assumption.
    fold (rank i) (rank j).
    destruct (Nat.lt_trichotomy (rank i) (rank j)) as [H|[H|H]];
      [|contradiction|].
    + pose proof (percentile_lt (length theta) H) as Hlt.
      pose proof (Hppf _ _ Hi0 Hlt Hj1). nra.
    + pose proof (percentile_lt (length theta) H) as Hlt.
      pose proof (Hppf _ _ Hj0 Hlt Hi1). nra.
  - intros k Hk [Hik Hkj].
    destruct (Rtotal_order (nth k theta 0) (nth i theta 0)) as [H|[H|H]];
      [exfalso|exact H|exfalso].
    + pose proof (rank_strength_lt Hs theta Hk Hi H) as Hlt.
      fold (rank k) (rank i) in Hlt. lia.
    + rewrite Heq in H.
      pose proof (rank_strength_lt Hs theta Hj Hk H) as Hlt.
      fold (rank k) (rank j) in Hlt. lia.
Qed.

Lemma target_trophies_tie_split_witness :
  let cfg : Config R := script_config in
  let lib := real_lib uniform_ppf in
  let theta := [0.5; 2; 0.5] in
  let t := target_trophies cfg theta in
  let rank k := nth k (ranks_of theta) 0%nat in
  (argsort_ok /\ increasing_on_unit norm_ppf /\ TARGET_STD cfg <> 0
   /\ 0%nat <> 2%nat /\ (0 < length theta)%nat /\ (2 < length theta)%nat
   /\ nth 0 theta 0 = nth 2 theta 0)
  /\ rank 0%nat <> rank 2%nat
  /\ percentile (rank 0%nat) (length theta)
     <> percentile (rank 2%nat) (length theta)
  /\ nth 0 t 0 <> nth 2 t 0
  /\ forall k, (k < length theta)%nat ->
       (rank 0%nat < rank k < rank 2%nat)%nat -> nth k theta 0 = nth 0 theta 0.
Proof.
  intros cfg lib theta t rank.
  assert (H0 : argsort_ok (lib := lib)) by apply real_lib_argsort_ok.
  assert (H1 : increasing_on_unit (norm_ppf (SciLib := lib)))
    by apply uniform_ppf_increasing.
  assert (H2 : TARGET_STD cfg <> 0) by (simpl; lra).
  assert (H3 : 0%nat <> 2%nat) by lia.
  assert (H4 : (0 < length theta)%nat) by (simpl; lia).
  assert (H5 : (2 < length theta)%nat) by (simpl; lia).
  assert (H6 : nth 0 theta 0 = nth 2 theta 0) by reflexivity.
  split; [exact (conj H0 (conj H1 (conj H2 (conj H3 (conj H4 (conj H5 H6))))))|].
  exact (@target_trophies_tie_split lib cfg theta 0 2 H0 H1 H2 H3 H4 H5 H6).
Defined.

End RealFacts.

(** ** The binary64 reading *)

Section Binary64Facts.
Import Binary64.
Local Open Scope float_scope.

Lemma ltb_leb (x y : float) : (x <? y) = true -> (x <=? y) = true.
Proof.
  rewrite ltb_spec, leb_spec. unfold SFltb, SFleb.
  destruct (SFcompare (Prim2SF x) (Prim2SF y)) as [[]|]; congruence.
Qed.

Lemma py_max_nonneg (t : float) : (0 <=? py_max 0 t) = true.
Proof.
  unfold py_max. simpl. destruct (0 <? t) eqn:E.
  - now apply ltb_leb.
  - reflexivity.
Qed.

(** NaN is absorbing. *)
Lemma add_nan_r (x : float) : x + nan = nan.
Proof.
  apply Prim2SF_inj. rewrite add_spec.
  destruct (Prim2SF x); reflexivity.
Qed.

Lemma add_nan_l (x : float) : nan + x = nan.
Proof.
  apply Prim2SF_inj. rewrite add_spec. reflexivity.
Qed.

Lemma sub_nan_r (x : float) : x - nan = nan.
Proof.
  apply Prim2SF_inj. rewrite sub_spec.
  destruct (Prim2SF x); reflexivity.
Qed.

Lemma mul_nan_r (x : float) : x * nan = nan.
Proof.
  apply Prim2SF_inj. rewrite mul_spec.
  destruct (Prim2SF x); reflexivity.
Qed.

(** [inf / (inf + y)] is NaN whatever [y] is. *)
Lemma inf_quotient_nan (y : float) : infinity / (infinity + y) = nan.
Proof.
  assert (H : infinity + y = infinity \/ infinity + y = nan).
  { destruct (Prim2SF y) as [s|s| |s m e] eqn:E.
    - left. apply Prim2SF_inj. rewrite add_spec, E. reflexivity.
    - destruct s.
      + right. apply Prim2SF_inj. rewrite add_spec, E. reflexivity.
      + left. apply Prim2SF_inj. rewrite add_spec, E. reflexivity.
    - right. apply Prim2SF_inj. rewrite add_spec, E. reflexivity.
    - left. apply Prim2SF_inj. rewrite add_spec, E. reflexivity. }
  destruct H as [-> | ->]; reflexivity.
Qed.

(** C2.  Whatever the configuration, the targets, the outcome and the sign
    of the gap (NaN and infinities included), a trophy step leaves the
    stepped participant with a trophy score [>= 0]; every other score is
    untouched, so scores that were [>= 0] stay so. *)
Theorem trophy_step_nonneg (cfg : Config float)
    (targets trophies : list float) (player : nat) (win : bool) :
  (player < length targets)%nat -> (player < length trophies)%nat ->
  exists trophies',
    trophy_step cfg targets trophies player win = Ok trophies'
    /\ (0 <=? nth player trophies' nan) = true
    /\ forall k, (0 <=? nth k trophies nan) = true ->
                 (0 <=? nth k trophies' nan) = true.
Proof.
  intros Ht Hc. unfold trophy_step.
  rewrite (get_Ok targets nan Ht), (get_Ok trophies nan Hc). simpl.
  eexists. split; [reflexivity|]. split.
  - rewrite upd_nth_same by assumption. apply py_max_nonneg.
  - intros k Hk. destruct (Nat.eq_dec player k) as [<-|Hne].
    + rewrite upd_nth_same by assumption. apply py_max_nonneg.
    + now rewrite upd_nth_other.
Qed.

Lemma trophy_step_nonneg_witness :
  let cfg : Config float := script_config in
  ((0 < 1)%nat /\ (0 < 1)%nat)
  /\ exists trophies',
       trophy_step cfg [nan] [10] 0 false = Ok trophies'
       /\ (0 <=? nth 0 trophies' nan) = true
       /\ forall k, (0 <=? nth k [10] nan) = true ->
                    (0 <=? nth k trophies' nan) = true.
Proof.
  intro cfg. split; [lia|].
  exact (@trophy_step_nonneg cfg [nan] [10] 0 false
           ltac:(simpl; lia) ltac:(simpl; lia)).
Defined.

(** Hence every score of every state the loop reaches is [>= 0], in
    binary64 and for any configuration and library. *)
Lemma trophy_step_keeps_nonneg64 (cfg : Config float)
    (targets trophies trophies' : list float) (player : nat) (win : bool) :
  Forall (fun t => (0 <=? t) = true) trophies ->
  trophy_step cfg targets trophies player win = Ok trophies' ->
  Forall (fun t => (0 <=? t) = true) trophies'.
Proof.
  intros Hall Hstep. unfold trophy_step in Hstep.
  destruct (get targets player) as [x|e]; [|discriminate]. simpl in Hstep.
  destruct (get trophies player) as [y|e] eqn:E; [|discriminate].
  apply (get_Ok_inv _ _ nan) in E as [Hc _]. simpl in Hstep.
  injection Hstep as <-.
  apply Forall_forall. intros t Ht.
  destruct (In_nth _ _ nan Ht) as (k & Hk & <-). rewrite upd_length in Hk.
  destruct (Nat.eq_dec player k) as [<-|Hne].
  - rewrite upd_nth_same by assumption. apply py_max_nonneg.
  - rewrite upd_nth_other by assumption.
    rewrite Forall_forall in Hall. apply Hall. now apply nth_In.
Qed.

Lemma reachable_trophies_nonneg64 (lib : SciLib float) (cfg : Config float)
    (true_skills : list float) (st : State) :
  reachable cfg true_skills st ->
  Forall (fun t => (0 <=? t) = true) (trophies st).
Proof.
  induction 1 as [|st st' i u r Hreach IH Hround].
  - simpl. apply Forall_forall. intros x Hx.
    apply repeat_spec in Hx. subst x. reflexivity.
  - unfold simulation_round in Hround.
    repeat match type of Hround with
           | bind ?m _ = Ok _ =>
               let E := fresh "E" in
               destruct m eqn:E; simpl bind in Hround; [|discriminate]
           end.
    injection Hround as <-. simpl.
    eapply trophy_step_keeps_nonneg64; [|eassumption].
    eapply trophy_step_keeps_nonneg64; eassumption.
Qed.

(** *** The estimator update is rounded *)

(** C1, as stated, fails in binary64.  From strengths [[1; 1]] the
    estimate is exactly 1/2 (for any finite [exp 1]) and [delta] is
    [K_BT / 2]; the winner's cell becomes [fl(1 + delta)], the loser's
    [fl(1 - delta)], and the two changes sum to [-2^-53], not to 0. *)
Lemma bt_round_residue64 :
  let cfg : Config float := script_config in
  let theta := [1; 1] in
  let theta' := [0x1.0666666666666p+0; 0x1.f333333333333p-1] in
  let change k := nth k theta' 0 - nth k theta 0 in
  bt_round (lib := script_lib) cfg theta 0 1 true = Ok theta'
  /\ change 0%nat + change 1%nat = - 0x1p-53
  /\ (change 0%nat + change 1%nat =? 0) = false.
Proof.
  intros cfg theta theta' change.
  split; [|split]; vm_compute; reflexivity.
Qed.

(** *** The matchmaker when every weight is zero *)

Lemma np_sum_zeros (n : nat) : np_sum (repeat 0 n) = 0.
Proof.
  unfold np_sum. simpl. induction n as [|n IH]; simpl; [reflexivity|].
  change (0 + 0) with 0. exact IH.
Qed.

Lemma kahan_loop_nan (c : float) (l : list float) : kahan_loop nan c l = nan.
Proof.
  revert c. induction l as [|x t IH]; intro c; simpl; [reflexivity|].
  rewrite add_nan_l. apply IH.
Qed.

Lemma rng_choice_nans (u : float) (n : nat) :
  rng_choice u (S n) (repeat nan (S n)) = Raise ValueError.
Proof.
  unfold rng_choice. rewrite repeat_length, Nat.eqb_refl. simpl negb.
  cbv iota. simpl kahan_sum. rewrite kahan_loop_nan. reflexivity.
Qed.

Lemma all_zero_repeat (l : list float) :
  (forall k, (k < length l)%nat -> nth k l 0 = 0) -> l = repeat 0 (length l).
Proof.
  intro H. apply (nth_ext _ _ 0 0).
  - now rewrite repeat_length.
  - intros k Hk. rewrite nth_repeat. now apply H.
Qed.

(** C3, as stated, fails: with two participants at strengths 0 and 100 and
    the script's [SIGMA_MATCH = 0.4], the only weight underflows to 0, the
    normalised probabilities are NaN, and [choose_opponent] raises instead of
    returning participant 1. *)
Lemma choose_opponent_collapse_raises :
  let cfg : Config float := script_config in
  let theta := [0; 100] in
  kernel (lib := script_lib) cfg (100 - 0) = 0
  /\ choose_opponent (lib := script_lib) cfg 0.5 0 theta = Raise ValueError
  /\ choose_opponent (lib := script_lib) cfg 0.5 0 theta <> Ok 1%nat.
Proof.
  intros cfg theta.
  assert (H : choose_opponent (lib := script_lib) cfg 0.5 0 theta
              = Raise ValueError) by (vm_compute; reflexivity).
  split; [vm_compute; reflexivity|]. split; [exact H|].
  rewrite H. discriminate.
Qed.

(** C3, amended.  [choose_opponent] has no fallback to a uniform choice:
    when every weight of another participant is zero, the weights sum to
    zero, the division turns every probability into NaN, and the draw raises
    [ValueError]; no opponent is returned, with two participants or more. *)
Theorem choose_opponent_zero_weights (lib : SciLib float)
    (cfg : Config float) (u : float) (i : nat) (theta : list float) :
  (i < length theta)%nat ->
  (forall j, (j < length theta)%nat -> j <> i ->
             kernel cfg (nth j theta 0 - nth i theta 0) = 0) ->
  choose_opponent cfg u i theta = Raise ValueError.
Proof.
  intros Hi Hz. unfold choose_opponent.
  rewrite (get_Ok theta 0 Hi). simpl bind. cbv zeta.
  set (probs := upd i _ _).
  assert (Hlen : length probs = length theta)
    by (unfold probs; now rewrite upd_length, !length_map).
  assert (Hp : probs = repeat 0 (length theta)).
  { rewrite <- Hlen. apply all_zero_repeat. intros k Hk. rewrite Hlen in Hk.
    unfold probs. destruct (Nat.eq_dec i k) as [<-|Hne].
    - apply upd_nth_same. now rewrite !length_map.
    - rewrite upd_nth_other by assumption.
      rewrite (nth_indep _ 0 (kernel cfg (0 - nth i theta 0)))
        by now rewrite !length_map.
      rewrite (map_nth (kernel cfg)).
      rewrite (map_nth (fun t => t - nth i theta 0)).
      apply Hz; auto. }
  rewrite Hp, np_sum_zeros, map_repeat.
  change (0 / 0) with nan.
  destruct (length theta) as [|n]; [lia|].
  apply rng_choice_nans.
Qed.

Lemma choose_opponent_zero_weights_witness :
  let cfg : Config float := script_config in
  let theta := [0; 100] in
  ((0 < 2)%nat
   /\ forall j, (j < 2)%nat -> j <> 0%nat ->
                kernel (lib := script_lib) cfg (nth j theta 0 - nth 0 theta 0)
                = 0)
  /\ choose_opponent (lib := script_lib) cfg 0.5 0 theta = Raise ValueError.
Proof.
  intros cfg theta.
  assert (Hz : forall j, (j < length theta)%nat -> j <> 0%nat ->
                 kernel (lib := script_lib) cfg
                        (nth j theta 0 - nth 0 theta 0) = 0).
  { intros [|[|j]] Hj Hne; simpl in Hj; try lia.
    vm_compute. reflexivity. }
  split; [split; [lia|exact Hz]|].
  exact (@choose_opponent_zero_weights script_lib cfg 0.5 0%nat theta
           ltac:(simpl; lia) Hz).
Defined.

(** *** The estimator when the exponential overflows *)

(** C4, as stated, fails: at strengths 1000 and 0 the exponential of the
    winner's strength overflows, the raw quotient the script computes is NaN
    and so are both updated strengths, where the stable logistic form gives
    1. *)
Lemma bt_update_overflow :
  let K : float := K_BT script_config in
  exp64 1000 / (exp64 1000 + exp64 0) = nan
  /\ stable_p_est (lib := script_lib) 1000 0 = 1
  /\ bt_update (lib := script_lib) 1000 0 1 K = (nan, nan).
Proof.
  intro K. repeat split; vm_compute; reflexivity.
Qed.

(** C4, amended.  The estimator computes [p_est] by dividing the raw
    exponentials, [exp(s_w) / (exp(s_w) + exp(s_l))], with no guard against
    overflow: in binary64, whenever [exp(s_w)] overflows to [+inf], [p_est]
    is NaN and both updated strengths are NaN. *)
Theorem bt_update_raw_quotient (lib : SciLib float)
    (a b outcome K : float) :
  np_exp a = infinity ->
  let p_est := np_exp a / (np_exp a + np_exp b) in
  bt_update a b outcome K
  = (a + K * (outcome - p_est), b - K * (outcome - p_est))
  /\ p_est = nan
  /\ bt_update a b outcome K = (nan, nan).
Proof.
  intros Ha p_est.
  assert (Hp : p_est = nan)
    by (unfold p_est; rewrite Ha; apply inf_quotient_nan).
  split; [reflexivity|]. split; [exact Hp|].
  unfold bt_update. simpl. fold p_est. rewrite Hp.
  now rewrite sub_nan_r, mul_nan_r, add_nan_r, sub_nan_r.
Qed.

Lemma bt_update_raw_quotient_witness :
  let K : float := K_BT script_config in
  let p_est := exp64 1000 / (exp64 1000 + exp64 0) in
  exp64 1000 = infinity
  /\ bt_update (lib := script_lib) 1000 0 1 K
     = (1000 + K * (1 - p_est), 0 - K * (1 - p_est))
  /\ p_est = nan
  /\ bt_update (lib := script_lib) 1000 0 1 K = (nan, nan).
Proof.
  intros K p_est.
  assert (H : exp64 1000 = infinity) by (vm_compute; reflexivity).
  split; [exact H|].
  exact (@bt_update_raw_quotient script_lib 1000 0 1 K H).
Defined.

End Binary64Facts.

(** * Further properties of the script *)

(** ** The real reading *)

Section RealExtras.
Import Real.
Local Open Scope R_scope.


Lemma clamp01_bounds (x : R) : 0 <= clamp01 x <= 1.
Proof.
  unfold clamp01. split.
  - apply Rmin_glb; [lra|apply Rmax_l].
  - apply Rmin_l.
Qed.


Lemma clamp01_sat (x : R) : 1 <= x -> clamp01 x = 1.
Proof.
  intro H. unfold clamp01. rewrite (Rmax_right 0 x) by lra.
  apply Rmin_left. lra.
Qed.

(** X2.  For a positive fade width and non-negative gain and penalty, a
    trophy step on a score [cur >= 0] is bounded and one-directional: a win
    stores a score between [cur] and [cur + WIN_GAIN], a loss one between
    [max(0, cur - LOSS_PENALTY)] and [cur]; once the gap to the target is
    at least the fade width, a win adds exactly [WIN_GAIN]. *)
Theorem trophy_step_bounded (cfg : Config R)
    (targets trophies : list R) (player : nat) (won : bool) :
  (player < length targets)%nat -> (player < length trophies)%nat ->
  0 < FADE_WIDTH cfg -> 0 <= WIN_GAIN cfg -> 0 <= LOSS_PENALTY cfg ->
  0 <= nth player trophies 0 ->
  let cur := nth player trophies 0 in
  let target := nth player targets 0 in
  exists trophies',
    trophy_step cfg targets trophies player won = Ok trophies'
    /\ (won = true -> cur <= nth player trophies' 0 <= cur + WIN_GAIN cfg)
    /\ (won = false ->
        Rmax 0 (cur - LOSS_PENALTY cfg) <= nth player trophies' 0 <= cur)
    /\ (won = true -> FADE_WIDTH cfg <= target - cur ->
        nth player trophies' 0 = cur + WIN_GAIN cfg).
Proof.
  intros Ht Hc Hf Hw Hl Hcur cur target.
  eexists. split; [now apply trophy_step_cell|].
  rewrite upd_nth_same by assumption. fold cur. fold target.
  set (scale := clamp01 ((target - cur) / FADE_WIDTH cfg)).
  pose proof (clamp01_bounds ((target - cur) / FADE_WIDTH cfg)) as [S0 S1].
  fold scale in S0, S1.
  assert (Hsat : FADE_WIDTH cfg <= target - cur -> scale = 1).
  { intro Hgap. apply clamp01_sat. unfold Rdiv.
    apply (Rmult_le_reg_r (FADE_WIDTH cfg)); [assumption|].
    rewrite Rmult_assoc, Rinv_l by lra. lra. }
  fold cur in Hcur. clearbody scale. clearbody cur target.
  assert (Hg : 0 <= WIN_GAIN cfg * scale <= WIN_GAIN cfg) by nra.
  assert (Hp : 0 <= LOSS_PENALTY cfg * scale <= LOSS_PENALTY cfg) by nra.
  split; [|split].
  - intros ->. split.
    + eapply Rle_trans; [|apply Rmax_r]. lra.
    + apply Rmax_lub; lra.
  - intros ->. split.
    + apply Rle_max_compat_l. lra.
    + apply Rmax_lub; lra.
  - intros -> Hgap. rewrite (Hsat Hgap), Rmult_1_r. apply Rmax_right. lra.
Qed.

Lemma trophy_step_bounded_witness :
  let cfg : Config R := script_config in
  ((0 < 1)%nat /\ (0 < 1)%nat /\ 0 < FADE_WIDTH cfg /\ 0 <= WIN_GAIN cfg
   /\ 0 <= LOSS_PENALTY cfg /\ 0 <= nth 0 [100] 0)
  /\ exists trophies',
       trophy_step cfg [1500] [100] 0 true = Ok trophies'
       /\ (true = true -> 100 <= nth 0 trophies' 0 <= 100 + WIN_GAIN cfg)
       /\ (true = false ->
           Rmax 0 (100 - LOSS_PENALTY cfg) <= nth 0 trophies' 0 <= 100)
       /\ (true = true -> FADE_WIDTH cfg <= 1500 - 100 ->
           nth 0 trophies' 0 = 100 + WIN_GAIN cfg).
Proof.
  intro cfg.
  assert (H1 : (0 < length [1500])%nat) by (simpl; lia).
  assert (H2 : (0 < length [100])%nat) by (simpl; lia).
  assert (H3 : 0 < FADE_WIDTH cfg) by (simpl; lra).
  assert (H4 : 0 <= WIN_GAIN cfg) by (simpl; lra).
  assert (H5 : 0 <= LOSS_PENALTY cfg) by (simpl; lra).
  assert (H6 : 0 <= nth 0 [100] 0) by (simpl; lra).
  split; [exact (conj H1 (conj H2 (conj H3 (conj H4 (conj H5 H6)))))|].
  exact (@trophy_step_bounded cfg [1500] [100] 0 true H1 H2 H3 H4 H5 H6).
Defined.



(** *** Targets *)

(** The target of rank [k] among [N] participants. *)
Lemma target_of_rank_le (lib : SciLib R) (cfg : Config R) (N r r' : nat) :
  nondecreasing_on_unit norm_ppf -> 0 <= TARGET_STD cfg ->
  (r <= r')%nat -> (r' < N)%nat ->
  TARGET_MEAN cfg + TARGET_STD cfg * norm_ppf (percentile r N)
  <= TARGET_MEAN cfg + TARGET_STD cfg * norm_ppf (percentile r' N).
Proof.
  intros Hppf Hstd Hr Hr'.
  assert (Hb : (r < N)%nat) by lia.
  pose proof (percentile_bounds Hb) as [H0 _].
  pose proof (percentile_bounds Hr') as [_ H1].
  assert (Hp : percentile r N <= percentile r' N).
  { destruct (Nat.eq_dec r r') as [->|Hne]; [lra|].
    left. apply percentile_lt. lia. }
  pose proof (Hppf _ _ H0 Hp H1). nra.
Qed.

(** X4.  The targets handed out depend on the number of participants
    only: whatever the strengths, [target_trophies] returns a permutation of
    the fixed grid [mean + std * ppf((k + 1) / (N + 1))], [k = 0 .. N-1];
    the strengths decide who gets which value.  For a non-decreasing [ppf]
    and a non-negative standard deviation every target lies between the
    first and the last value of the grid. *)
Theorem target_trophies_grid (lib : SciLib R) (cfg : Config R)
    (theta : list R) :
  argsort_ok ->
  let N := length theta in
  let grid k := TARGET_MEAN cfg + TARGET_STD cfg * norm_ppf (percentile k N) in
  Permutation (target_trophies cfg theta) (map grid (seq 0 N))
  /\ (nondecreasing_on_unit norm_ppf -> 0 <= TARGET_STD cfg ->
      forall i, (i < N)%nat ->
                grid 0%nat <= nth i (target_trophies cfg theta) 0
                <= grid (N - 1)%nat).
Proof.
  intros Hs N grid. split.
  - unfold target_trophies. rewrite !map_map.
    rewrite (map_ext _ grid)
      by (intro r; unfold grid, N; simpl; now rewrite percentile_IZR).
    apply Permutation_map. destruct Hs as [S1 S2].
    apply (ranks_perm S1 S2).
  - intros Hppf Hstd i Hi.
    rewrite (target_trophies_nth cfg Hs) by assumption.
    pose proof (rank_bound Hs theta Hi) as Hb. fold N in Hb.
    split; apply target_of_rank_le; auto; lia.
Qed.

Lemma target_trophies_grid_witness :
  let cfg : Config R := script_config in
  let lib := real_lib uniform_ppf in
  let theta := [3; 1; 2] in
  let grid k := TARGET_MEAN cfg + TARGET_STD cfg * norm_ppf (percentile k 3) in
  argsort_ok
  /\ Permutation (target_trophies cfg theta) (map grid (seq 0 3))
  /\ (nondecreasing_on_unit norm_ppf -> 0 <= TARGET_STD cfg ->
      forall i, (i < 3)%nat ->
                grid 0%nat <= nth i (target_trophies cfg theta) 0
                <= grid (3 - 1)%nat).
Proof.
  intros cfg lib theta grid.
  assert (H0 : argsort_ok (lib := lib)) by apply real_lib_argsort_ok.
  split; [exact H0|].
  exact (@target_trophies_grid lib cfg theta H0).
Defined.

(** X5.  For a positive standard deviation and a [ppf] increasing on
    (0,1) the targets order the participants exactly as the strengths do: a
    strictly smaller strength gets a strictly smaller target, and a strictly
    smaller target is never held by the stronger participant. *)
Theorem target_trophies_strict (lib : SciLib R) (cfg : Config R)
    (theta : list R) (i j : nat) :
  argsort_ok -> increasing_on_unit norm_ppf -> 0 < TARGET_STD cfg ->
  (i < length theta)%nat -> (j < length theta)%nat ->
  (nth i theta 0 < nth j theta 0 ->
   nth i (target_trophies cfg theta) 0 < nth j (target_trophies cfg theta) 0)
  /\ (nth i (target_trophies cfg theta) 0 < nth j (target_trophies cfg theta) 0
      -> nth i theta 0 <= nth j theta 0).
Proof.
  intros Hs Hppf Hstd Hi Hj.
  assert (Hstrict : forall a b, (a < length theta)%nat ->
            (b < length theta)%nat -> nth a theta 0 < nth b theta 0 ->
            nth a (target_trophies cfg theta) 0
            < nth b (target_trophies cfg theta) 0).
  { intros a b Ha Hb Hlt.
    rewrite !(target_trophies_nth cfg Hs) by assumption.
    pose proof (rank_strength_lt Hs theta Ha Hb Hlt) as Hr.
    pose proof (rank_bound Hs theta Ha) as Ba.
    pose proof (rank_bound Hs theta Hb) as Bb.
    pose proof (percentile_lt (length theta) Hr) as Hp.
    pose proof (percentile_bounds Ba) as [Ha0 _].
    pose proof (percentile_bounds Bb) as [_ Hb1].
    pose proof (Hppf _ _ Ha0 Hp Hb1). nra. }
  split; [now apply Hstrict|].
  intro Hlt. destruct (Rle_or_lt (nth i theta 0) (nth j theta 0)) as [H|H];
    [exact H|].
  pose proof (Hstrict j i Hj Hi H). lra.
Qed.

Lemma target_trophies_strict_witness :
  let cfg : Config R := script_config in
  let lib := real_lib uniform_ppf in
  let theta := [0; 1] in
  (argsort_ok /\ increasing_on_unit norm_ppf /\ 0 < TARGET_STD cfg
   /\ (0 < 2)%nat /\ (1 < 2)%nat)
  /\ (nth 0 theta 0 < nth 1 theta 0 ->
      nth 0 (target_trophies cfg theta) 0 < nth 1 (target_trophies cfg theta) 0)
  /\ (nth 0 (target_trophies cfg theta) 0 < nth 1 (target_trophies cfg theta) 0
      -> nth 0 theta 0 <= nth 1 theta 0).
Proof.
  intros cfg lib theta.
  assert (H0 : argsort_ok (lib := lib)) by apply real_lib_argsort_ok.
  assert (H1 : increasing_on_unit (norm_ppf (SciLib := lib)))
    by apply uniform_ppf_increasing.
  assert (H2 : 0 < TARGET_STD cfg) by (simpl; lra).
  assert (H3 : (0 < length theta)%nat) by (simpl; lia).
  assert (H4 : (1 < length theta)%nat) by (simpl; lia).
  split; [exact (conj H0 (conj H1 (conj H2 (conj H3 H4))))|].
  exact (@target_trophies_strict lib cfg theta 0 1 H0 H1 H2 H3 H4).
Defined.

(** *** The matchmaker in exact arithmetic *)
















End RealExtras.

(** ** The loop, in any arithmetic *)

Section LoopShape.
Context {F : Type} {num : Num F} {lib : SciLib F}.
Variable cfg : Config F.






End LoopShape.

(** ** The loop in the real reading *)

Section RealLoop.
Import Real.
Local Open Scope R_scope.










(** *** A ceiling for the trophy scores *)





End RealLoop.

(** ** The binary64 reading: edges *)

Section Binary64Extras.
Import Binary64.
Local Open Scope float_scope.

Lemma sub_nan_l (x : float) : nan - x = nan.
Proof.
  apply Prim2SF_inj. rewrite sub_spec. reflexivity.
Qed.

Lemma div_nan_l (x : float) : nan / x = nan.
Proof.
  apply Prim2SF_inj. rewrite div_spec. reflexivity.
Qed.

(** X11.  Below two participants the matchmaker always raises, whatever
    the configuration, the library and the variate: [IndexError] when [i] is
    not an index of [theta] (the empty array included), [ValueError] for a
    single participant, whose only weight is zeroed so that the
    normalisation divides 0 by 0. *)
Theorem choose_opponent_too_few (lib : SciLib float) (cfg : Config float)
    (u : float) (i : nat) (theta : list float) :
  (length theta < 2)%nat ->
  choose_opponent cfg u i theta
  = Raise (if (i <? length theta)%nat then ValueError else IndexError).
Proof.
  intro H. destruct theta as [|t [|t' theta]]; simpl in H; try lia.
  - destruct i; reflexivity.
  - destruct i as [|i].
    + unfold choose_opponent. simpl.
      change (nan :: nil) with (repeat nan 1). apply rng_choice_nans.
    + destruct i; reflexivity.
Qed.

Lemma choose_opponent_too_few_witness :
  let cfg : Config float := script_config in
  let theta : list float := [3.5] in
  (length theta < 2)%nat
  /\ choose_opponent (lib := script_lib) cfg 0.25 0 theta
     = Raise (if (0 <? length theta)%nat then ValueError else IndexError).
Proof.
  intros cfg theta.
  assert (H : (length theta < 2)%nat) by (simpl; lia).
  split; [exact H|].
  exact (@choose_opponent_too_few script_lib cfg 0.25 0%nat theta H).
Defined.

(** X12.  A NaN never enters the trophy array, but it costs the score:
    when the target or the current score of the stepped participant is NaN,
    the step stores 0 for it, won or lost, whatever the configuration. *)
Theorem trophy_step_nan_resets (cfg : Config float)
    (targets trophies : list float) (player : nat) (win : bool) :
  (player < length targets)%nat -> (player < length trophies)%nat ->
  nth player targets 0 = nan \/ nth player trophies 0 = nan ->
  trophy_step cfg targets trophies player win = Ok (upd player 0 trophies).
Proof.
  intros Ht Hc Hnan. unfold trophy_step.
  rewrite (get_Ok targets 0 Ht), (get_Ok trophies 0 Hc). simpl.
  assert (Hgap : nth player targets 0 - nth player trophies 0 = nan)
    by (destruct Hnan as [-> | ->]; [apply sub_nan_l|apply sub_nan_r]).
  rewrite Hgap, div_nan_l.
  change (np_clip nan 0 1) with nan.
  rewrite !mul_nan_r.
  destruct win; [rewrite add_nan_r|rewrite sub_nan_r]; reflexivity.
Qed.

Lemma trophy_step_nan_resets_witness :
  let cfg : Config float := script_config in
  let targets : list float := [1500; nan] in
  let trophies : list float := [20; 740] in
  ((1 < length targets)%nat /\ (1 < length trophies)%nat
   /\ (nth 1 targets 0 = nan \/ nth 1 trophies 0 = nan))
  /\ trophy_step cfg targets trophies 1 true = Ok (upd 1 0 trophies).
Proof.
  intros cfg targets trophies.
  assert (H1 : (1 < length targets)%nat) by (simpl; lia).
  assert (H2 : (1 < length trophies)%nat) by (simpl; lia).
  assert (H3 : nth 1 targets 0 = nan \/ nth 1 trophies 0 = nan)
    by (left; reflexivity).
  split; [exact (conj H1 (conj H2 H3))|].
  exact (@trophy_step_nan_resets cfg targets trophies 1 true H1 H2 H3).
Defined.

Lemma finite_pos_shape (x : float) :
  (0 <? x) = true -> (x <? infinity) = true ->
  exists m e, Prim2SF x = S754_finite false m e.
Proof.
  rewrite !ltb_spec. unfold SFltb.
  destruct (Prim2SF x) as [s|s| |s m e]; simpl.
  - discriminate.
  - destruct s; discriminate.
  - discriminate.
  - destruct s; [discriminate|]. intros _ _. now exists m, e.
Qed.

(** X13.  Only the winner's exponential is dangerous.  When the loser's
    exponential overflows to [+inf] while the winner's is finite and
    positive, there is no NaN: [p_est] is exactly 0 and the update is the
    full step, [K * 1] added to the winner and subtracted from the loser. *)
Theorem bt_update_loser_overflow (lib : SciLib float) (a b K : float) :
  (0 <? np_exp a) = true -> (np_exp a <? infinity) = true ->
  np_exp b = infinity ->
  np_exp a / (np_exp a + np_exp b) = 0
  /\ bt_update a b 1 K = (a + K * 1, b - K * 1).
Proof.
  intros Hpos Hfin Hb.
  destruct (@finite_pos_shape (np_exp a) Hpos Hfin) as (m & e & Hx).
  assert (Hsum : np_exp a + infinity = infinity)
    by (apply Prim2SF_inj; rewrite add_spec, Hx; reflexivity).
  assert (Hq : np_exp a / infinity = 0)
    by (apply Prim2SF_inj; rewrite div_spec, Hx; reflexivity).
  unfold bt_update. simpl. rewrite Hb, Hsum, Hq.
  split; reflexivity.
Qed.

Lemma bt_update_loser_overflow_witness :
  let K : float := K_BT script_config in
  ((0 <? exp64 0) = true /\ (exp64 0 <? infinity) = true
   /\ exp64 1000 = infinity)
  /\ exp64 0 / (exp64 0 + exp64 1000) = 0
  /\ bt_update (lib := script_lib) 0 1000 1 K = (0 + K * 1, 1000 - K * 1).
Proof.
  intro K.
  assert (H1 : (0 <? exp64 0) = true) by (vm_compute; reflexivity).
  assert (H2 : (exp64 0 <? infinity) = true) by (vm_compute; reflexivity).
  assert (H3 : exp64 1000 = infinity) by (vm_compute; reflexivity).
  split; [exact (conj H1 (conj H2 H3))|].
  exact (@bt_update_loser_overflow script_lib 0 1000 K H1 H2 H3).
Defined.

(** X14.  In binary64 too, and for any configuration, library and
    variates, no state the loop can be in holds a negative or NaN trophy
    score. *)
Theorem loop_trophies_nonneg (lib : SciLib float) (cfg : Config float)
    (true_skills : list float) (st : State) :
  reachable cfg true_skills st ->
  forall k, (k < length (trophies st))%nat ->
            (0 <=? nth k (trophies st) nan) = true.
Proof.
  intros Hreach k Hk.
  pose proof (reachable_trophies_nonneg64 Hreach) as Hall.
  rewrite Forall_forall in Hall. apply Hall. now apply nth_In.
Qed.

Lemma loop_trophies_nonneg_witness :
  let cfg : Config float := script_config in
  let skills := map (fun k => float_of_Z (Z.of_nat k) / 100) (seq 0 100) in
  let round (st : State) (i : nat) (u r : float) :=
    match simulation_round (lib := script_lib) cfg skills st i u r with
    | Ok s => s
    | Raise _ => st
    end in
  let st1 := round (initial_state cfg) 7%nat 0.5 0.25 in
  let st2 := round st1 42%nat 0.75 0.5 in
  reachable (lib := script_lib) cfg skills st2
  /\ forall k, (k < length (trophies st2))%nat ->
               (0 <=? nth k (trophies st2) nan) = true.
Proof.
  intros cfg skills round st1 st2.
  assert (H : reachable (lib := script_lib) cfg skills st2).
  { apply (@reach_round float _ script_lib cfg skills st1 st2 42%nat 0.75 0.5).
    - apply (@reach_round float _ script_lib cfg skills (initial_state cfg)
               st1 7%nat 0.5 0.25); [constructor|].
      vm_compute. reflexivity.
    - vm_compute. reflexivity. }
  split; [exact H|].
  exact (@loop_trophies_nonneg script_lib cfg skills st2 H).
Defined.

End Binary64Extras.

(** ** The matchmaker never picks the participant itself, in binary64 *)

Section CumulativeSums.
Context {F : Type} {num : Num F}.

Lemma cumsum_from_step_any (acc d : F) (l : list F) (k : nat) :
  S k < length l ->
  nth (S k) (cumsum_from acc l) d
  = fadd (nth k (cumsum_from acc l) d) (nth (S k) l d).
Proof.
  revert acc k. induction l as [|x t IH]; intros acc k Hk; simpl in Hk;
    [lia|].
  destruct k as [|k].
  - destruct t as [|y t]; [simpl in Hk; lia|]. reflexivity.
  - simpl. apply IH. lia.
Qed.

Lemma np_cumsum_step_any (d : F) (l : list F) (k : nat) :
  S k < length l ->
  nth (S k) (np_cumsum l) d = fadd (nth k (np_cumsum l) d) (nth (S k) l d).
Proof.
  destruct l as [|x t]; simpl; [lia|]. intro Hk.
  destruct k as [|k].
  - destruct t as [|y t]; [simpl in Hk; lia|]. reflexivity.
  - apply cumsum_from_step_any. lia.
Qed.

Lemma np_cumsum_length_any (l : list F) : length (np_cumsum l) = length l.
Proof.
  destruct l as [|x t]; [reflexivity|]. simpl. f_equal.
  generalize x. induction t as [|y t IH]; intro a; simpl; auto.
Qed.

Lemma searchsorted_right_first (cdf : list F) (u d : F) :
  let j := searchsorted_right cdf u in
  (forall k, k < j -> flt u (nth k cdf d) = false)
  /\ (j < length cdf -> flt u (nth j cdf d) = true).
Proof.
  induction cdf as [|c t [IH1 IH2]]; simpl.
  - split; intros; lia.
  - destruct (flt u c) eqn:E.
    + split; [intros; lia|auto].
    + split.
      * intros [|k] Hk; [exact E|]. apply IH1. lia.
      * intro H. apply IH2. lia.
Qed.

End CumulativeSums.

Section Binary64Match.
Import Binary64.
Local Open Scope float_scope.

(** [0 / s] is a zero or NaN. *)
Lemma zero_quotient_shape (s : float) :
  Prim2SF (0 / s) = S754_nan \/ exists b, Prim2SF (0 / s) = S754_zero b.
Proof.
  rewrite div_spec. change (Prim2SF 0) with (S754_zero false).
  destruct (Prim2SF s) as [b|b| |b m e]; simpl; eauto.
Qed.

(** A variate that is not below 0 is not below a zero of either sign, nor
    below NaN. *)
Lemma ltb_zero_or_nan (u z : float) :
  (u <? 0) = false ->
  Prim2SF z = S754_nan \/ (exists b, Prim2SF z = S754_zero b) ->
  (u <? z) = false.
Proof.
  rewrite !ltb_spec. change (Prim2SF 0) with (S754_zero false).
  intros Hu [-> | [b ->]].
  - unfold SFltb. destruct (Prim2SF u); reflexivity.
  - unfold SFltb in *. destruct (Prim2SF u) as [c|c| |c m e]; simpl in *;
      assumption.
Qed.

(** Dividing a zero or NaN gives a zero or NaN. *)
Lemma div_zero_or_nan (z L : float) :
  Prim2SF z = S754_nan \/ (exists b, Prim2SF z = S754_zero b) ->
  Prim2SF (z / L) = S754_nan \/ exists b, Prim2SF (z / L) = S754_zero b.
Proof.
  rewrite div_spec. intros [-> | [b ->]].
  - left. reflexivity.
  - destruct (Prim2SF L) as [c|c| |c m e]; simpl; eauto.
Qed.

(** Adding a zero or NaN to a cumulative sum does not bring the
    normalised sum above a variate it was not above. *)
Lemma ltb_add_zero_or_nan (u c z L : float) :
  Prim2SF z = S754_nan \/ (exists b, Prim2SF z = S754_zero b) ->
  (u <? (c + z) / L) = true -> (u <? c / L) = true.
Proof.
  rewrite !ltb_spec, !div_spec, add_spec.
  intros [-> | [b ->]].
  - destruct (Prim2SF c); simpl; unfold SFltb;
      destruct (Prim2SF u); simpl; discriminate.
  - destruct (Prim2SF c) as [a|a| |a m e].
    + (* a zero plus a zero is a zero *)
      assert (Hz : exists a', SF64add (S754_zero a) (S754_zero b)
                              = S754_zero a')
        by (destruct a, b; simpl; eauto).
      destruct Hz as [a' ->].
      destruct (Prim2SF L) as [l|l| |l ml el]; simpl; unfold SFltb;
        destruct (Prim2SF u) as [v|v| |v mv ev]; simpl; auto.
    + intro H. exact H.
    + intro H. exact H.
    + intro H. exact H.
Qed.

(** X6.  The matchmaker never pairs a participant with itself, in binary64
    and whatever the configuration, the library and the strengths: the
    weight of [i] is set to 0 (line 72), so the cumulative sums do not move
    at [i] and no variate [u >= 0] falls into its slice.  Whenever
    [choose_opponent] returns an index, it is not [i]. *)
Theorem choose_opponent_never_self (lib : SciLib float) (cfg : Config float)
    (u : float) (i j : nat) (theta : list float) :
  (u <? 0) = false -> choose_opponent cfg u i theta = Ok j -> j <> i.
Proof.
  intros Hu Hc Hji. subst j. unfold choose_opponent in Hc.
  destruct (get theta i) as [ti|e] eqn:E; [|discriminate].
  apply (get_Ok_inv _ _ 0) in E as [Hi _]. simpl bind in Hc. cbv zeta in Hc.
  set (probs := upd i _ _) in Hc.
  set (s := np_sum probs) in Hc.
  set (p := map _ probs) in Hc.
  assert (Hlen : length p = length theta)
    by (unfold p, probs; now rewrite length_map, upd_length, !length_map).
  assert (Hpi : nth i p 0 = 0 / s).
  { unfold p.
    rewrite (nth_indep _ 0 (0 / s))
      by (rewrite length_map; unfold probs;
          now rewrite upd_length, !length_map).
    rewrite (map_nth (fun q => q / s)).
    unfold probs. rewrite upd_nth_same by now rewrite !length_map.
    reflexivity. }
  unfold rng_choice in Hc.
  destruct (negb _); [discriminate|].
  destruct (fisnan _); [discriminate|].
  destruct (existsb _ p); [discriminate|].
  destruct (_ || _)%bool; [discriminate|].
  injection Hc as Hc.
  set (L := last (np_cumsum p) _) in Hc.
  destruct (searchsorted_right_first
              (map (fun c => c / L) (np_cumsum p)) u 0) as [H1 H2].
  rewrite Hc in H1, H2.
  rewrite length_map, np_cumsum_length_any, Hlen in H2. specialize (H2 Hi).
  assert (Hnth : forall k, (k < length theta)%nat ->
                   nth k (map (fun c => c / L) (np_cumsum p)) 0
                   = nth k (np_cumsum p) 0 / L).
  { intros k Hk.
    rewrite (nth_indep _ 0 (0 / L))
      by now rewrite length_map, np_cumsum_length_any, Hlen.
    now rewrite (map_nth (fun c => c / L)). }
  rewrite Hnth in H2 by assumption.
  pose proof (zero_quotient_shape s) as Hz.
  destruct i as [|k].
  - assert (H0 : nth 0 (np_cumsum p) 0 = nth 0 p 0)
      by (destruct p; reflexivity).
    rewrite H0, Hpi in H2.
    change (flt u (0 / s / L)) with (u <? 0 / s / L) in H2.
    rewrite (@ltb_zero_or_nan u (0 / s / L) Hu
               (@div_zero_or_nan (0 / s) L Hz)) in H2.
    discriminate.
  - specialize (H1 k (Nat.lt_succ_diag_r k)).
    rewrite Hnth in H1 by lia.
    rewrite np_cumsum_step_any, Hpi in H2 by now rewrite Hlen.
    apply (@ltb_add_zero_or_nan u (nth k (np_cumsum p) 0) (0 / s) L Hz) in H2.
    change (flt u (nth k (np_cumsum p) 0 / L))
      with (u <? nth k (np_cumsum p) 0 / L) in H1.
    congruence.
Qed.

Lemma choose_opponent_never_self_witness :
  let cfg : Config float := script_config in
  let theta : list float := [0.25; -0.5; 0.75; 0] in
  ((0.5 <? 0) = false
   /\ choose_opponent (lib := script_lib) cfg 0.5 2 theta = Ok 0%nat)
  /\ 0%nat <> 2%nat.
Proof.
  intros cfg theta.
  assert (H1 : (0.5 <? 0) = false) by reflexivity.
  assert (H2 : choose_opponent (lib := script_lib) cfg 0.5 2 theta = Ok 0%nat)
    by (vm_compute; reflexivity).
  split; [exact (conj H1 H2)|].
  exact (@choose_opponent_never_self script_lib cfg 0.5 2 0 theta H1 H2).
Defined.

End Binary64Match.

(** ** The two trophy steps of a round *)

Section TrophyOrder.
Context {F : Type} {num : Num F}.
Variable cfg : Config F.

Lemma upd_upd_comm {A : Type} (i j : nat) (x y : A) (l : list A) :
  i <> j -> upd i x (upd j y l) = upd j y (upd i x l).
Proof.
  revert i j. induction l as [|a t IH]; intros [|i] [|j] Hij; simpl;
    try congruence; auto.
  f_equal. apply IH. congruence.
Qed.

Lemma get_upd_other {A : Type} (i k : nat) (v : A) (l : list A) :
  i <> k -> get (upd i v l) k = get l k.
Proof.
  unfold get. revert i k. induction l as [|a t IH]; intros [|i] [|k] Hik;
    simpl; try congruence; auto.
Qed.

(** X18.  The two trophy steps of a round do not interfere: for two
    distinct participants, stepping [i] and then [j] gives the same result
    (the same array, or the same exception) as stepping [j] and then [i],
    in any arithmetic. *)
Theorem trophy_steps_commute (targets trophies : list F) (i j : nat)
    (wi wj : bool) :
  i <> j ->
  (t1 <- trophy_step cfg targets trophies i wi ;;
   trophy_step cfg targets t1 j wj)%py
  = (t1 <- trophy_step cfg targets trophies j wj ;;
     trophy_step cfg targets t1 i wi)%py.
Proof.
  intro Hij. unfold trophy_step.
  assert (Hnone : forall (A : Type) (l : list A) k e,
             get l k = Raise e -> e = IndexError).
  { intros A l k e. unfold get. destruct (nth_error l k); congruence. }
  destruct (get targets i) as [ti|e1] eqn:Ei;
    destruct (get targets j) as [tj|e2] eqn:Ej;
    destruct (get trophies i) as [ci|e3] eqn:Ci;
    destruct (get trophies j) as [cj|e4] eqn:Cj;
    simpl bind; cbv zeta;
    rewrite ?(get_upd_other _ _ Hij), ?(get_upd_other _ _ (not_eq_sym Hij)),
      ?Ci, ?Cj; simpl bind;
    repeat match goal with
           | H : get _ _ = Raise _ |- _ => apply Hnone in H; subst
           end;
    try reflexivity.
  f_equal. apply upd_upd_comm. congruence.
Qed.

End TrophyOrder.

Lemma trophy_steps_commute_witness :
  let cfg : Config float := script_config in
  let targets : list float := [1500; 1200; 900]%float in
  let trophies : list float := [20; 740; 0]%float in
  0%nat <> 2%nat
  /\ (t1 <- trophy_step cfg targets trophies 0 true ;;
      trophy_step cfg targets t1 2 false)%py
     = (t1 <- trophy_step cfg targets trophies 2 false ;;
        trophy_step cfg targets t1 0 true)%py.
Proof.
  intros cfg targets trophies.
  assert (H : 0%nat <> 2%nat) by lia.
  split; [exact H|].
  exact (@trophy_steps_commute float _ cfg targets trophies 0 2 true false H).
Defined.

(** ** Targets and the order of the strengths *)

Lemma sorted_perm_unique_on (R : nat -> nat -> Prop) (s t : list nat) :
  (forall x y, In x s -> In y s -> R x y -> R y x -> x = y) ->
  StronglySorted R s -> StronglySorted R t -> Permutation s t -> s = t.
Proof.
  intros Hanti Hs. revert t. induction Hs as [|x s Hs IH Hx]; intros t Ht Hp.
  - now apply Permutation_nil in Hp.
  - destruct Ht as [|y t Ht Hy].
    + apply Permutation_sym, Permutation_nil in Hp. discriminate.
    + rewrite Forall_forall in Hx, Hy.
      assert (x = y) as ->.
      { assert (In y (x :: s)) as [->|Hin]
            by (eapply Permutation_in; [apply Permutation_sym, Hp|now left]);
          [reflexivity|].
        assert (In x (y :: t)) as [->|Hin']
            by (eapply Permutation_in; [apply Hp|now left]);
          [reflexivity|].
        apply Hanti; [now left|now right|auto|auto]. }
      f_equal. apply IH; [|assumption|].
      * intros a b Ha Hb. apply Hanti; now right.
      * eapply Permutation_cons_inv, Hp.
Qed.

Lemma StronglySorted_impl_in {A : Type} (R R' : A -> A -> Prop) (l : list A) :
  (forall x y, In x l -> In y l -> R x y -> R' x y) ->
  StronglySorted R l -> StronglySorted R' l.
Proof.
  intros Himp Hs. induction Hs as [|x s Hs IH Hx]; constructor.
  - apply IH. intros a b Ha Hb. apply Himp; now right.
  - rewrite Forall_forall in *. intros y Hy.
    apply Himp; [now left|now right|auto].
Qed.

Section RealOrder.
Import Real.
Local Open Scope R_scope.

(** X19.  The targets depend on the strengths through their order only:
    two strength vectors of the same length without ties that order the
    participants alike get the same targets, whatever sorting algorithm
    [argsort] runs.  (Shifting every strength by a constant, or scaling all
    of them by a positive factor, changes no target.) *)
Theorem target_trophies_order_only (lib : SciLib R) (cfg : Config R)
    (theta theta' : list R) :
  argsort_ok -> length theta' = length theta ->
  (forall i j, (i < length theta)%nat -> (j < length theta)%nat -> i <> j ->
               nth i theta 0 <> nth j theta 0) ->
  (forall i j, (i < length theta)%nat -> (j < length theta)%nat ->
               (nth i theta 0 < nth j theta 0
                <-> nth i theta' 0 < nth j theta' 0)) ->
  target_trophies cfg theta' = target_trophies cfg theta.
Proof.
  intros [Hs _] Hlen Hdist Hord.
  assert (E : np_argsort theta' = np_argsort theta).
  { destruct (Hs theta) as [P1 S1]. destruct (Hs theta') as [P2 S2].
    rewrite Hlen in P2.
    assert (Hin : forall x, In x (np_argsort theta') ->
                            (x < length theta)%nat).
    { intros x Hx. apply (Permutation_in _ P2) in Hx.
      apply in_seq in Hx. lia. }
    apply (@sorted_perm_unique_on
             (fun i j => flt (nth j theta f0) (nth i theta f0) = false)).
    - intros x y Hx Hy Hxy Hyx. simpl in Hxy, Hyx.
      apply Rltb_false in Hxy, Hyx.
      destruct (Nat.eq_dec x y) as [e|ne]; [exact e|exfalso].
      apply (Hdist x y (Hin x Hx) (Hin y Hy) ne). lra.
    - apply (StronglySorted_impl_in
               (R := fun i j => flt (nth j theta' f0) (nth i theta' f0) = false));
        [|exact S2].
      intros x y Hx Hy H. simpl in H |- *.
      apply Rltb_false in H. apply Rltb_false.
      destruct (Rle_lt_dec (nth x theta 0) (nth y theta 0)) as [Hle|Hlt];
        [exact Hle|exfalso].
      apply (Hord y x (Hin y Hy) (Hin x Hx)) in Hlt. lra.
    - exact S1.
    - now rewrite P1, P2. }
  unfold target_trophies, ranks_of. now rewrite E, Hlen.
Qed.

Lemma target_trophies_order_only_witness :
  let cfg : Config R := script_config in
  let lib := real_lib uniform_ppf in
  let theta := [0.3; -1; 2] in
  let theta' := [5; 4; 6] in
  (argsort_ok /\ length theta' = length theta
   /\ (forall i j, (i < length theta)%nat -> (j < length theta)%nat ->
                   i <> j -> nth i theta 0 <> nth j theta 0)
   /\ (forall i j, (i < length theta)%nat -> (j < length theta)%nat ->
                   (nth i theta 0 < nth j theta 0
                    <-> nth i theta' 0 < nth j theta' 0)))
  /\ target_trophies cfg theta' = target_trophies cfg theta.
Proof.
  intros cfg lib theta theta'.
  assert (H0 : argsort_ok (lib := lib)) by apply real_lib_argsort_ok.
  assert (H1 : length theta' = length theta) by reflexivity.
  assert (H2 : forall i j, (i < length theta)%nat -> (j < length theta)%nat ->
                 i <> j -> nth i theta 0 <> nth j theta 0).
  { intros [|[|[|i]]] [|[|[|j]]] Hi Hj Hij; simpl in *; try lia; lra. }
  assert (H3 : forall i j, (i < length theta)%nat -> (j < length theta)%nat ->
                 (nth i theta 0 < nth j theta 0
                  <-> nth i theta' 0 < nth j theta' 0)).
  { intros [|[|[|i]]] [|[|[|j]]] Hi Hj; simpl in *; try lia; split; lra. }
  split; [exact (conj H0 (conj H1 (conj H2 H3)))|].
  exact (@target_trophies_order_only lib cfg theta theta' H0 H1 H2 H3).
Defined.

End RealOrder.
